(** * A bounded binary min-heap: [ruby/command-t/heap.c]

    Shallow embedding of the fixed-capacity heap of Command-T and the
    properties its description states about it.

    Conventions of the embedding.
    - A [long] is a [Z].  Every index the code computes from an index below
      [count] stays far below [2^63] (the backing store holds [capacity]
      pointers), so no wrap-around is written out.
    - A [void *] handle is the [Z] value of the pointer; [NULL] is [0].
    - [entries] is the [malloc]ed array, a list of [capacity] slots.  Reading
      or writing a slot outside the array is undefined behaviour in C; here
      every array access is checked and the operation yields [None] then.
      [None] is also what a loop yields when its fuel runs out; the
      totality lemmas below show that neither happens on a well-formed heap.
    - The comparator is the function pointer stored in the heap, a function
      from two handles to an [int]. *)

From Stdlib Require Import ZArith Lia.
From stdpp Require Import base option list.

Local Open Scope Z_scope.

(** ** Data model *)

Definition ptr : Type := Z.
Definition NULL : ptr := 0.

Definition heap_compare_entries : Type := ptr → ptr → Z.

Record heap_t : Type := mk_heap {
  count : Z;
  capacity : Z;
  entries : list ptr;
  comparator : heap_compare_entries
}.

Definition HEAP_PARENT (index : Z) : Z := (index - 1) `quot` 2.
Definition HEAP_LEFT (index : Z) : Z := 2 * index + 1.
Definition HEAP_RIGHT (index : Z) : Z := 2 * index + 2.

(** Checked array read [a[i]] and write [a[i] = v]. *)
Definition load (a : list ptr) (i : Z) : option ptr :=
  if bool_decide (0 ≤ i) then a !! Z.to_nat i else None.

Definition store (a : list ptr) (i : Z) (v : ptr) : option (list ptr) :=
  if bool_decide (0 ≤ i < Z.of_nat (length a))
  then Some (<[Z.to_nat i := v]> a) else None.

Definition set_entries (heap : heap_t) (e : list ptr) : heap_t :=
  mk_heap (count heap) (capacity heap) e (comparator heap).

Definition set_count (heap : heap_t) (n : Z) : heap_t :=
  mk_heap n (capacity heap) (entries heap) (comparator heap).

(** ** Operations *)

(** [heap_new], on the path where both allocations succeed.  The slots of a
    fresh array are indeterminate; they are never read before being written,
    and the model fills them with [NULL]. *)
Definition heap_new (capacity : Z) (comparator : heap_compare_entries) : heap_t :=
  mk_heap 0 capacity (replicate (Z.to_nat capacity) NULL) comparator.

Definition heap_compare (heap : heap_t) (a_idx b_idx : Z) : option Z :=
  a ← load (entries heap) a_idx;
  b ← load (entries heap) b_idx;
  Some (comparator heap a b).

Definition heap_property (heap : heap_t) (parent_idx child_idx : Z) : option bool :=
  c ← heap_compare heap parent_idx child_idx;
  Some (c =? -1).

Definition heap_swap (heap : heap_t) (a b : Z) : option heap_t :=
  tmp ← load (entries heap) a;
  vb ← load (entries heap) b;
  e1 ← store (entries heap) a vb;
  e2 ← store e1 b tmp;
  Some (set_entries heap e2).

(** The [while] loop of [heap_insert]; one unit of fuel per test of the loop
    condition.  [idx && ...] does not evaluate [heap_property] at the root. *)
Fixpoint bubble_up (fuel : nat) (heap : heap_t) (idx parent_idx : Z) : option heap_t :=
  match fuel with
  | O => None
  | S fuel' =>
      if idx =? 0 then Some heap
      else
        ok ← heap_property heap parent_idx idx;
        if (ok : bool) then Some heap
        else
          heap' ← heap_swap heap idx parent_idx;
          bubble_up fuel' heap' parent_idx (HEAP_PARENT parent_idx)
  end.

Definition heap_insert (heap : heap_t) (value : ptr) : option heap_t :=
  if count heap =? capacity heap then Some heap
  else
    let idx := count heap in
    e ← store (entries heap) idx value;
    let heap1 := set_count (set_entries heap e) (count heap + 1) in
    bubble_up (S (Z.to_nat idx)) heap1 idx (HEAP_PARENT idx).

(** [heap_heapify].  The second index handed to [heap_compare] is the value
    of the C expression [right_idx == -1], that is [1] or [0]. *)
Fixpoint heapify_fuel (fuel : nat) (heap : heap_t) (idx : Z) : option heap_t :=
  match fuel with
  | O => None
  | S fuel' =>
      let left_idx := HEAP_LEFT idx in
      let right_idx := HEAP_RIGHT idx in
      smallest_idx ←
        (if right_idx <? count heap then
           c ← heap_compare heap left_idx (if right_idx =? -1 then 1 else 0);
           Some (if (c : Z) =? 0 then right_idx else left_idx)
         else if left_idx <? count heap then Some left_idx
         else Some idx);
      if smallest_idx =? idx then Some heap
      else
        ok ← heap_property heap idx smallest_idx;
        if (ok : bool) then Some heap
        else
          heap' ← heap_swap heap idx smallest_idx;
          heapify_fuel fuel' heap' smallest_idx
  end.

Definition heap_heapify (heap : heap_t) (idx : Z) : option heap_t :=
  heapify_fuel (S (Z.to_nat (count heap))) heap idx.

(** First loop of [heap_bulk_insert]: [limit] is fixed, so the loop runs
    [n = max 0 limit] times, reading [values[i]], [values[i+1]], ... *)
Fixpoint bulk_copy (n : nat) (heap : heap_t) (i : Z) (values : list ptr) : option heap_t :=
  match n with
  | O => Some heap
  | S n' =>
      v ← load values i;
      e ← store (entries heap) (count heap) v;
      bulk_copy n' (set_count (set_entries heap e) (count heap + 1)) (i + 1) values
  end.

(** Second loop: [for (...; i >= 0; i--) heap_heapify(heap, i)]. *)
Fixpoint bulk_heapify (fuel : nat) (heap : heap_t) (i : Z) : option heap_t :=
  match fuel with
  | O => None
  | S fuel' =>
      if 0 <=? i then
        heap' ← heap_heapify heap i;
        bulk_heapify fuel' heap' (i - 1)
      else Some heap
  end.

Definition heap_bulk_insert (heap : heap_t) (count_arg : Z) (values : list ptr) : option heap_t :=
  let available := capacity heap - count heap in
  let limit := if available >? count_arg then count_arg else available in
  heap1 ← bulk_copy (Z.to_nat limit) heap 0 values;
  let i0 := (count heap1 - 1) `quot` 2 in
  bulk_heapify (Z.to_nat (i0 + 2)) heap1 i0.

(** [heap_extract] returns the extracted handle and the heap it leaves. *)
Definition heap_extract (heap : heap_t) : option (ptr * heap_t) :=
  if count heap =? 0 then Some (NULL, heap)
  else
    extracted ← load (entries heap) 0;
    last ← load (entries heap) (count heap - 1);
    e ← store (entries heap) 0 last;
    heap' ← heap_heapify (set_count (set_entries heap e) (count heap - 1)) 0;
    Some (extracted, heap').

(** ** Sequences of calls *)

Inductive call : Type :=
  | Insert (value : ptr)
  | BulkInsert (values : list ptr)
  | Extract.

Definition do_call (heap : heap_t) (c : call) : option heap_t :=
  match c with
  | Insert v => heap_insert heap v
  | BulkInsert vs => heap_bulk_insert heap (Z.of_nat (length vs)) vs
  | Extract => snd <$> heap_extract heap
  end.

Fixpoint do_calls (heap : heap_t) (cs : list call) : option heap_t :=
  match cs with
  | [] => Some heap
  | c :: cs' => heap' ← do_call heap c; do_calls heap' cs'
  end.

Fixpoint insert_all (heap : heap_t) (vs : list ptr) : option heap_t :=
  match vs with
  | [] => Some heap
  | v :: vs' => heap' ← heap_insert heap v; insert_all heap' vs'
  end.

(** [n] successive calls of [heap_extract]: the handles returned, in order,
    and the heap left. *)
Fixpoint extract_n (n : nat) (heap : heap_t) : option (list ptr * heap_t) :=
  match n with
  | O => Some ([], heap)
  | S n' =>
      '(x, heap') ← heap_extract heap;
      '(xs, heap'') ← extract_n n' heap';
      Some (x :: xs, heap'')
  end.

(** Two numeric comparators used in the examples: by value, and by the
    score [handle / 10] (handles of one score compare equal). *)
Definition cmp_Z (a b : Z) : Z :=
  match a ?= b with Lt => -1 | Eq => 0 | Gt => 1 end.

Definition cmp_num : heap_compare_entries := cmp_Z.
Definition cmp_score : heap_compare_entries := λ a b, cmp_Z (a `div` 10) (b `div` 10).

(** ** Predicates on heaps and the states used in the examples *)

(** A heap as the code keeps it: [count] within [0 .. capacity] and a
    backing store of [capacity] slots. *)
Definition wf (heap : heap_t) : Prop :=
  0 ≤ count heap ≤ capacity heap ∧ Z.of_nat (length (entries heap)) = capacity heap.

(** The stored handles, [entries[0 .. count)]. *)
Definition stored (heap : heap_t) : list ptr :=
  take (Z.to_nat (count heap)) (entries heap).

(** What every operation keeps of a heap, up to the order of the stored
    handles. *)
Definition same_shape (heap heap' : heap_t) : Prop :=
  count heap' = count heap ∧ capacity heap' = capacity heap ∧
  comparator heap' = comparator heap ∧
  length (entries heap') = length (entries heap).

Definition keeps (heap heap' : heap_t) : Prop :=
  same_shape heap heap' ∧ stored heap' ≡ₚ stored heap.

(** The index [heap_heapify] calls [smallest_idx]. *)
Definition heapify_choice (heap : heap_t) (idx : Z) : option Z :=
  if HEAP_RIGHT idx <? count heap then
    c ← heap_compare heap (HEAP_LEFT idx) (if HEAP_RIGHT idx =? -1 then 1 else 0);
    Some (if (c : Z) =? 0 then HEAP_RIGHT idx else HEAP_LEFT idx)
  else if HEAP_LEFT idx <? count heap then Some (HEAP_LEFT idx)
  else Some idx.

(** [ancestor j idx]: [HEAP_PARENT] applied [j] times to [idx]. *)
Definition ancestor (j : nat) (idx : Z) : Z := Nat.iter j HEAP_PARENT idx.

(** The invariant of the description: no parent compares [+1] with a child. *)
Definition heap_invariant (heap : heap_t) : Prop :=
  ∀ i p c, 1 ≤ i < count heap →
    load (entries heap) (HEAP_PARENT i) = Some p →
    load (entries heap) i = Some c →
    comparator heap p c ≠ 1.

(** The property [heap_property] tests: every parent compares [-1] with each
    of its children. *)
Definition strict_heap (heap : heap_t) : Prop :=
  ∀ i, 1 ≤ i < count heap →
    ∃ p c, load (entries heap) (HEAP_PARENT i) = Some p ∧
           load (entries heap) i = Some c ∧ comparator heap p c = -1.

(** The state of the loop of [heap_insert] at slot [idx]: the invariant holds
    at every slot but [idx], and the parent of [idx] does not compare [+1]
    with the children of [idx]. *)
Definition almost_heap (heap : heap_t) (idx : Z) : Prop :=
  (∀ i p c, 1 ≤ i < count heap → i ≠ idx →
     load (entries heap) (HEAP_PARENT i) = Some p →
     load (entries heap) i = Some c →
     comparator heap p c ≠ 1) ∧
  (idx ≠ 0 → ∀ c g x, 1 ≤ c < count heap → HEAP_PARENT c = idx →
     load (entries heap) (HEAP_PARENT idx) = Some g →
     load (entries heap) c = Some x →
     comparator heap g x ≠ 1).

(** A sequence of handles in non-decreasing comparator order. *)
Definition nondecreasing (cmp : heap_compare_entries) (xs : list ptr) : Prop :=
  ∀ i a b, xs !! i = Some a → xs !! S i = Some b → cmp a b ≠ 1.

(** A heap holding the handle [50], with room for one more: the state after
    [heap_insert] of [50] into [heap_new 2 cmp_score]. *)
Definition heap_50 : heap_t := mk_heap 1 2 [50; NULL] cmp_score.

(** The heap [heap_heapify] is called on at index 1 while [heap_bulk_insert]
    builds a heap from [10, 50, 20, 51, 70] under the score comparator. *)
Definition heap_5 : heap_t := mk_heap 5 5 [10; 50; 20; 51; 70] cmp_score.

(** A full heap of two handles of equal score: the state after [heap_insert]
    of [50] and then [51] into [heap_new 2 cmp_score]. *)
Definition heap_full : heap_t := mk_heap 2 2 [51; 50] cmp_score.

(** A comparator that orders the handles: [cmp a b ≠ 1] reads [a ≤ b], it is
    transitive, and whenever [a] is not below [b] ([cmp a b ≠ -1]) then
    [b ≤ a]. *)
Definition lawful (cmp : heap_compare_entries) : Prop :=
  (∀ a b c, cmp a b ≠ 1 → cmp b c ≠ 1 → cmp a c ≠ 1) ∧
  (∀ a b, cmp a b ≠ -1 → cmp b a ≠ 1).

(** Slot [i] lies in the subtree rooted at slot [idx]. *)
Definition descends (i idx : Z) : Prop := ∃ j, ancestor j i = idx.

(** A heap of three handles with one free slot. *)
Definition heap_3 : heap_t := mk_heap 3 4 [1; 3; 2; NULL] cmp_num.

(** * Lemmas *)

(** Well-formedness of a concrete heap, and running the code on it. *)
Ltac concrete_wf := split; simpl; lia.
Ltac run_code := eexists; split; [vm_compute; reflexivity|].

(** ** Arrays *)

Lemma load_Some a i x :
  load a i = Some x ↔ 0 ≤ i ∧ a !! Z.to_nat i = Some x.
Proof.
  unfold load. case_bool_decide; [tauto|].
  split; [done|]. intros [? _]. lia.
Qed.

Lemma load_in_range a i :
  0 ≤ i < Z.of_nat (length a) → ∃ x, load a i = Some x.
Proof.
  intros Hi. destruct (lookup_lt_is_Some_2 a (Z.to_nat i)) as [x Hx]; [lia|].
  exists x. apply load_Some. split; [lia|done].
Qed.

Lemma load_lt a i x : load a i = Some x → 0 ≤ i < Z.of_nat (length a).
Proof.
  intros [? Hl%lookup_lt_Some]%load_Some. lia.
Qed.

Lemma store_in_range a i v :
  0 ≤ i < Z.of_nat (length a) → store a i v = Some (<[Z.to_nat i := v]> a).
Proof.
  intros Hi. unfold store. by rewrite bool_decide_eq_true_2.
Qed.

Lemma store_Some a i v a' :
  store a i v = Some a' →
  0 ≤ i < Z.of_nat (length a) ∧ a' = <[Z.to_nat i := v]> a.
Proof.
  unfold store. case_bool_decide; [|done].
  intros [= <-]. done.
Qed.

Lemma insert_cons_Permutation (l : list ptr) i x y :
  l !! i = Some y → y :: <[i:=x]> l ≡ₚ x :: l.
Proof.
  revert i. induction l as [|z l IH]; intros [|i] Hi; simplify_eq/=.
  - apply perm_swap.
  - rewrite perm_swap, (IH i Hi). apply perm_swap.
Qed.

Lemma swap_Permutation (l : list ptr) a b x y :
  l !! a = Some x → l !! b = Some y → <[b:=x]> (<[a:=y]> l) ≡ₚ l.
Proof.
  revert a b. induction l as [|z l IH]; intros [|a] [|b] Ha Hb; simplify_eq/=.
  - done.
  - by apply insert_cons_Permutation.
  - by apply insert_cons_Permutation.
  - f_equiv. by apply IH.
Qed.

Lemma take_swap_Permutation (l : list ptr) n a b x y :
  (a < n)%nat → (b < n)%nat → l !! a = Some x → l !! b = Some y →
  take n (<[b:=x]> (<[a:=y]> l)) ≡ₚ take n l.
Proof.
  intros Ha Hb Hx Hy.
  rewrite !take_insert_lt by done.
  apply swap_Permutation; by rewrite lookup_take_lt.
Qed.

(** ** Shape and multiset of the stored handles *)

Lemma keeps_refl heap : keeps heap heap.
Proof. by repeat split. Qed.

Lemma keeps_trans h1 h2 h3 : keeps h1 h2 → keeps h2 h3 → keeps h1 h3.
Proof.
  intros [(?&?&?&?) P12] [(?&?&?&?) P23].
  repeat split; try congruence. by rewrite P23.
Qed.

Lemma keeps_wf heap heap' : wf heap → keeps heap heap' → wf heap'.
Proof.
  intros [Hc Hl] [(Ec&Ep&_&El) _]. unfold wf. rewrite Ec, Ep, El. done.
Qed.

Lemma heap_swap_in_range heap a b :
  0 ≤ a < Z.of_nat (length (entries heap)) →
  0 ≤ b < Z.of_nat (length (entries heap)) →
  ∃ x y, load (entries heap) a = Some x ∧ load (entries heap) b = Some y ∧
    heap_swap heap a b =
      Some (set_entries heap (<[Z.to_nat b := x]> (<[Z.to_nat a := y]> (entries heap)))).
Proof.
  intros Ha Hb.
  destruct (load_in_range _ _ Ha) as [x Hx], (load_in_range _ _ Hb) as [y Hy].
  exists x, y. split_and!; [done..|].
  unfold heap_swap. rewrite Hx, Hy. simpl.
  rewrite store_in_range by done. simpl.
  rewrite store_in_range by (by rewrite length_insert). done.
Qed.

Lemma heap_swap_keeps heap a b :
  wf heap → 0 ≤ a < count heap → 0 ≤ b < count heap →
  ∃ heap', heap_swap heap a b = Some heap' ∧ keeps heap heap'.
Proof.
  intros [Hc Hl] Ha Hb.
  destruct (heap_swap_in_range heap a b) as (x & y & Hx & Hy & ->); [lia..|].
  eexists; split; [done|]. split.
  - repeat split; simpl. by rewrite !length_insert.
  - unfold stored; simpl. apply load_Some in Hx as [_ Hx], Hy as [_ Hy].
    apply take_swap_Permutation; [lia..|done|done].
Qed.

Lemma heap_compare_in_range heap a b :
  0 ≤ a < Z.of_nat (length (entries heap)) →
  0 ≤ b < Z.of_nat (length (entries heap)) →
  ∃ x y, load (entries heap) a = Some x ∧ load (entries heap) b = Some y ∧
    heap_compare heap a b = Some (comparator heap x y).
Proof.
  intros Ha Hb.
  destruct (load_in_range _ _ Ha) as [x Hx], (load_in_range _ _ Hb) as [y Hy].
  exists x, y. unfold heap_compare. rewrite Hx, Hy. done.
Qed.

(** ** [heap_heapify] *)

Lemma heapify_fuel_unfold fuel heap idx :
  heapify_fuel (S fuel) heap idx =
    smallest_idx ← heapify_choice heap idx;
    if smallest_idx =? idx then Some heap
    else
      ok ← heap_property heap idx smallest_idx;
      if (ok : bool) then Some heap
      else heap' ← heap_swap heap idx smallest_idx;
           heapify_fuel fuel heap' smallest_idx.
Proof. reflexivity. Qed.

Lemma heapify_choice_range heap idx :
  wf heap → 0 ≤ idx →
  ∃ s, heapify_choice heap idx = Some s ∧
    (s = idx ∨ (s = HEAP_LEFT idx ∨ s = HEAP_RIGHT idx) ∧ idx < s < count heap).
Proof.
  intros [Hc Hl] Hi. unfold heapify_choice, HEAP_LEFT, HEAP_RIGHT.
  destruct (Z.ltb_spec (2 * idx + 2) (count heap)) as [Hr|Hr].
  - rewrite (proj2 (Z.eqb_neq _ _)) by lia.
    destruct (heap_compare_in_range heap (2 * idx + 1) 0) as (x & y & _ & _ & ->);
      [lia..|].
    simpl. destruct (_ =? 0); eexists; (split; [done|]); right; lia.
  - destruct (Z.ltb_spec (2 * idx + 1) (count heap)) as [Hlt|Hlt];
      eexists; (split; [done|]); [right; lia|by left].
Qed.

Lemma heapify_fuel_total fuel heap idx :
  wf heap → 0 ≤ idx → (Z.to_nat (count heap - idx) < fuel)%nat →
  ∃ heap', heapify_fuel fuel heap idx = Some heap' ∧ keeps heap heap'.
Proof.
  revert heap idx. induction fuel as [|fuel IH]; intros heap idx Hwf Hi Hf; [lia|].
  rewrite heapify_fuel_unfold.
  destruct (heapify_choice_range heap idx Hwf Hi) as (s & -> & Hs). simpl.
  destruct (Z.eqb_spec s idx) as [->|Hne].
  { eexists; split; [done|apply keeps_refl]. }
  destruct Hs as [?|[_ Hs]]; [done|].
  pose proof Hwf as [Hc Hl].
  unfold heap_property.
  destruct (heap_compare_in_range heap idx s) as (x & y & _ & _ & ->); [lia..|].
  simpl. destruct (_ =? -1).
  { eexists; split; [done|apply keeps_refl]. }
  destruct (heap_swap_keeps heap idx s Hwf) as (h1 & -> & K1); [lia..|]. simpl.
  destruct (IH h1 s) as (h2 & -> & K2).
  - by eapply keeps_wf.
  - lia.
  - destruct K1 as [(-> & _) _]. lia.
  - eexists; split; [done|]. by eapply keeps_trans.
Qed.

Lemma heap_heapify_total heap idx :
  wf heap → 0 ≤ idx →
  ∃ heap', heap_heapify heap idx = Some heap' ∧ keeps heap heap'.
Proof.
  intros Hwf Hi. apply heapify_fuel_total; [done..|]. destruct Hwf. lia.
Qed.

(** More fuel gives the same result. *)
Lemma heapify_fuel_mono fuel fuel' heap idx heap' :
  heapify_fuel fuel heap idx = Some heap' → (fuel ≤ fuel')%nat →
  heapify_fuel fuel' heap idx = Some heap'.
Proof.
  revert fuel' heap idx. induction fuel as [|fuel IH]; intros [|fuel'] heap idx; try done;
    [lia|].
  rewrite !heapify_fuel_unfold. intros H Hle.
  destruct (heapify_choice heap idx) as [s|]; simpl in *; [|done].
  destruct (s =? idx); [done|].
  destruct (heap_property heap idx s) as [[]|]; simpl in *; try done.
  destruct (heap_swap heap idx s) as [h1|]; simpl in *; [|done].
  apply IH; [done|lia].
Qed.

(** ** [heap_insert] *)

Lemma HEAP_PARENT_range idx : 0 < idx → 0 ≤ HEAP_PARENT idx < idx.
Proof.
  intros Hi. unfold HEAP_PARENT.
  rewrite Z.quot_div_nonneg by lia.
  split; [apply Z.div_pos; lia|].
  apply Z.div_lt_upper_bound; lia.
Qed.

Lemma bubble_up_total fuel heap idx :
  wf heap → 0 ≤ idx < count heap → (Z.to_nat idx < fuel)%nat →
  ∃ heap', bubble_up fuel heap idx (HEAP_PARENT idx) = Some heap' ∧ keeps heap heap'.
Proof.
  revert heap idx. induction fuel as [|fuel IH]; intros heap idx Hwf Hi Hf; [lia|].
  simpl. destruct (Z.eqb_spec idx 0) as [->|Hne].
  { eexists; split; [done|apply keeps_refl]. }
  pose proof (HEAP_PARENT_range idx) as Hp. pose proof Hwf as [Hc Hl].
  unfold heap_property.
  destruct (heap_compare_in_range heap (HEAP_PARENT idx) idx) as (x & y & _ & _ & ->);
    [lia..|].
  simpl. destruct (_ =? -1).
  { eexists; split; [done|apply keeps_refl]. }
  destruct (heap_swap_keeps heap idx (HEAP_PARENT idx) Hwf) as (h1 & -> & K1); [lia..|].
  simpl. destruct (IH h1 (HEAP_PARENT idx)) as (h2 & -> & K2).
  - by eapply keeps_wf.
  - destruct K1 as [(-> & _) _]. lia.
  - lia.
  - eexists; split; [done|]. by eapply keeps_trans.
Qed.

Lemma take_S_insert (l : list ptr) n v :
  (n < length l)%nat → take (S n) (<[n:=v]> l) = take n l ++ [v].
Proof.
  intros Hn. rewrite (take_S_r _ _ v) by (by apply list_lookup_insert_eq).
  by rewrite take_insert_ge.
Qed.

Lemma heap_insert_total heap value :
  wf heap → count heap < capacity heap →
  ∃ heap', heap_insert heap value = Some heap' ∧ wf heap' ∧
    count heap' = count heap + 1 ∧ capacity heap' = capacity heap ∧
    comparator heap' = comparator heap ∧
    stored heap' ≡ₚ stored heap ++ [value].
Proof.
  intros [Hc Hl] Hlt. unfold heap_insert.
  rewrite (proj2 (Z.eqb_neq _ _)) by lia.
  rewrite store_in_range by lia. cbn [mbind option_bind].
  set (h1 := set_count _ _).
  assert (wf h1) as Hwf1 by (split; simpl; [lia|by rewrite length_insert]).
  destruct (bubble_up_total (S (Z.to_nat (count heap))) h1 (count heap) Hwf1)
    as (h2 & -> & K); [simpl; lia..|].
  exists h2. split; [done|]. split; [by eapply keeps_wf|].
  destruct K as [(-> & -> & -> & _) ->]. split_and!; [done..|].
  unfold stored; simpl.
  replace (Z.to_nat (count heap + 1)) with (S (Z.to_nat (count heap))) by lia.
  rewrite take_S_insert by lia. done.
Qed.

Lemma heap_insert_full heap value :
  count heap = capacity heap → heap_insert heap value = Some heap.
Proof.
  intros E. unfold heap_insert. by rewrite (proj2 (Z.eqb_eq _ _) E).
Qed.

(** ** [heap_extract] *)

Lemma take_move_last (l : list ptr) n x y :
  l !! 0%nat = Some x → l !! n = Some y →
  x :: take n (<[0%nat:=y]> l) ≡ₚ take (S n) l.
Proof.
  destruct l as [|z l]; [done|]. intros [= ->] Hn. simpl.
  destruct n as [|m]; simpl in *; [done|].
  rewrite (take_S_r _ _ _ Hn). f_equiv. apply Permutation_cons_append.
Qed.

Lemma heap_extract_total heap :
  wf heap → 0 < count heap →
  ∃ x heap', heap_extract heap = Some (x, heap') ∧
    load (entries heap) 0 = Some x ∧ wf heap' ∧
    count heap' = count heap - 1 ∧ capacity heap' = capacity heap ∧
    comparator heap' = comparator heap ∧
    x :: stored heap' ≡ₚ stored heap.
Proof.
  intros [Hc Hl] Hpos. unfold heap_extract.
  rewrite (proj2 (Z.eqb_neq _ _)) by lia.
  destruct (load_in_range (entries heap) 0) as [x Hx]; [lia|].
  destruct (load_in_range (entries heap) (count heap - 1)) as [y Hy]; [lia|].
  rewrite Hx, Hy. simpl. rewrite store_in_range by lia. simpl.
  set (h1 := set_count _ _).
  assert (wf h1) as Hwf1 by (split; simpl; [lia|by rewrite length_insert]).
  destruct (heap_heapify_total h1 0 Hwf1) as (h2 & -> & K); [done|].
  exists x, h2. split; [done|]. split; [done|]. split; [by eapply keeps_wf|].
  destruct K as [(-> & -> & -> & _) ->]. split_and!; [done..|].
  unfold stored; simpl.
  apply load_Some in Hx as [_ Hx], Hy as [_ Hy].
  replace (Z.to_nat (count heap)) with (S (Z.to_nat (count heap - 1))) by lia.
  by apply take_move_last.
Qed.

Lemma heap_extract_empty heap :
  count heap = 0 → heap_extract heap = Some (NULL, heap).
Proof.
  intros E. unfold heap_extract. by rewrite E.
Qed.

(** ** [heap_bulk_insert] *)

Lemma bulk_copy_total n heap i values :
  wf heap → 0 ≤ i → Z.of_nat n ≤ capacity heap - count heap →
  i + Z.of_nat n ≤ Z.of_nat (length values) →
  ∃ heap', bulk_copy n heap i values = Some heap' ∧ wf heap' ∧
    count heap' = count heap + Z.of_nat n ∧ capacity heap' = capacity heap ∧
    comparator heap' = comparator heap ∧
    stored heap' = stored heap ++ take n (drop (Z.to_nat i) values).
Proof.
  revert heap i. induction n as [|n IH]; intros heap i Hwf Hi Hn Hv; simpl.
  { exists heap. split_and!; [done..|lia|done|done|]. by rewrite take_0, app_nil_r. }
  pose proof Hwf as [Hc Hl].
  destruct (load_in_range values i) as [v Hload]; [lia|].
  rewrite Hload. simpl. rewrite store_in_range by lia. simpl.
  set (h1 := set_count _ _).
  assert (wf h1) as Hwf1 by (split; simpl; [lia|by rewrite length_insert]).
  destruct (IH h1 (i + 1) Hwf1) as (h2 & -> & Hwf2 & Ec & Ep & Em & Es);
    [simpl; lia..|].
  exists h2. split_and!; [done..|simpl in Ec; lia|done|done|].
  rewrite Es. unfold stored; simpl.
  replace (Z.to_nat (count heap + 1)) with (S (Z.to_nat (count heap))) by lia.
  rewrite take_S_insert by lia. rewrite <- app_assoc. f_equal.
  apply load_Some in Hload as [_ Hload].
  rewrite (drop_S _ _ _ Hload). simpl. do 3 f_equal. lia.
Qed.

Lemma bulk_heapify_total fuel heap i :
  wf heap → (Z.to_nat (i + 1) < fuel)%nat →
  ∃ heap', bulk_heapify fuel heap i = Some heap' ∧ keeps heap heap'.
Proof.
  revert heap i. induction fuel as [|fuel IH]; intros heap i Hwf Hf; [lia|].
  simpl. destruct (Z.leb_spec 0 i) as [Hi|Hi].
  - destruct (heap_heapify_total heap i Hwf Hi) as (h1 & -> & K1). simpl.
    destruct (IH h1 (i - 1)) as (h2 & -> & K2); [by eapply keeps_wf|lia|].
    eexists; split; [done|]. by eapply keeps_trans.
  - eexists; split; [done|apply keeps_refl].
Qed.

Lemma heap_bulk_insert_total heap values :
  wf heap →
  let k := Z.min (Z.of_nat (length values)) (capacity heap - count heap) in
  ∃ heap', heap_bulk_insert heap (Z.of_nat (length values)) values = Some heap' ∧
    wf heap' ∧ count heap' = count heap + k ∧ capacity heap' = capacity heap ∧
    comparator heap' = comparator heap ∧
    stored heap' ≡ₚ stored heap ++ take (Z.to_nat k) values.
Proof.
  intros Hwf k. pose proof Hwf as [Hc Hl]. unfold heap_bulk_insert.
  assert ((if capacity heap - count heap >? Z.of_nat (length values)
           then Z.of_nat (length values) else capacity heap - count heap) = k) as ->.
  { unfold k. destruct (Z.gtb_spec (capacity heap - count heap) (Z.of_nat (length values)));
      lia. }
  destruct (bulk_copy_total (Z.to_nat k) heap 0 values Hwf)
    as (h1 & -> & Hwf1 & Ec & Ep & Em & Es); [lia..|].
  simpl. set (i0 := (count h1 - 1) `quot` 2).
  destruct (bulk_heapify_total (Z.to_nat (i0 + 2)) h1 i0 Hwf1) as (h2 & -> & K).
  { assert (-1 < i0); [|lia]. unfold i0.
    destruct (Z.eq_dec (count h1) 0) as [->|]; [done|].
    rewrite Z.quot_div_nonneg by lia. assert (0 ≤ (count h1 - 1) `div` 2); [|lia].
    apply Z.div_pos; lia. }
  exists h2. split; [done|]. split; [by eapply keeps_wf|].
  destruct K as [(-> & -> & -> & _) ->]. split_and!; [lia|done..|].
  rewrite Es. simpl. by rewrite drop_0.
Qed.

(** ** Sequences of calls keep the heap well formed *)

Lemma heap_new_wf capacity comparator : 0 ≤ capacity → wf (heap_new capacity comparator).
Proof.
  intros Hc. split; simpl; [lia|]. rewrite length_replicate. lia.
Qed.

Lemma do_call_total heap c :
  wf heap →
  ∃ heap', do_call heap c = Some heap' ∧ wf heap' ∧
    capacity heap' = capacity heap ∧ comparator heap' = comparator heap.
Proof.
  intros Hwf. pose proof Hwf as [Hc Hl]. destruct c as [v|vs|]; simpl.
  - destruct (Z.eq_dec (count heap) (capacity heap)) as [E|Hne].
    + rewrite heap_insert_full by done. by exists heap.
    + destruct (heap_insert_total heap v Hwf) as (h' & -> & ? & _ & ? & ? & _); [lia|].
      by exists h'.
  - destruct (heap_bulk_insert_total heap vs Hwf) as (h' & -> & ? & _ & ? & ? & _).
    by exists h'.
  - destruct (Z.eq_dec (count heap) 0) as [E|Hne].
    + rewrite heap_extract_empty by done. by exists heap.
    + destruct (heap_extract_total heap Hwf) as (x & h' & -> & _ & ? & _ & ? & ? & _);
        [lia|].
      by exists h'.
Qed.

Lemma do_calls_total cs heap :
  wf heap →
  ∃ heap', do_calls heap cs = Some heap' ∧ wf heap' ∧
    capacity heap' = capacity heap ∧ comparator heap' = comparator heap.
Proof.
  revert heap. induction cs as [|c cs IH]; intros heap Hwf; simpl.
  { by exists heap. }
  destruct (do_call_total heap c Hwf) as (h1 & -> & Hwf1 & Ep1 & Em1). simpl.
  destruct (IH h1 Hwf1) as (h2 & -> & Hwf2 & Ep2 & Em2).
  exists h2. split_and!; [done..|congruence|congruence].
Qed.

(** ** Reading a swapped array *)

Lemma load_insert_eq (a : list ptr) i v :
  0 ≤ i < Z.of_nat (length a) → load (<[Z.to_nat i := v]> a) i = Some v.
Proof.
  intros Hi. apply load_Some. split; [lia|]. apply list_lookup_insert_eq. lia.
Qed.

Lemma load_insert_ne (a : list ptr) i j v :
  0 ≤ i → i ≠ j → load (<[Z.to_nat i := v]> a) j = load a j.
Proof.
  intros Hi Hne. unfold load. case_bool_decide; [|done].
  apply list_lookup_insert_ne. lia.
Qed.

Lemma heap_swap_effect heap a b :
  0 ≤ a < Z.of_nat (length (entries heap)) →
  0 ≤ b < Z.of_nat (length (entries heap)) → a ≠ b →
  ∃ x y heap', load (entries heap) a = Some x ∧ load (entries heap) b = Some y ∧
    heap_swap heap a b = Some heap' ∧ same_shape heap heap' ∧
    load (entries heap') a = Some y ∧ load (entries heap') b = Some x ∧
    ∀ i, i ≠ a → i ≠ b → load (entries heap') i = load (entries heap) i.
Proof.
  intros Ha Hb Hne.
  destruct (heap_swap_in_range heap a b Ha Hb) as (x & y & Hx & Hy & Hs).
  exists x, y. eexists. split_and!; [done..| | | |]; simpl.
  - repeat split; simpl. by rewrite !length_insert.
  - rewrite load_insert_ne by lia. by apply load_insert_eq.
  - apply load_insert_eq. by rewrite length_insert.
  - intros i Hia Hib. by rewrite !load_insert_ne by lia.
Qed.

(** ** The path from a slot to the root *)

Lemma ancestor_S j idx : ancestor (S j) idx = HEAP_PARENT (ancestor j idx).
Proof. reflexivity. Qed.

Lemma ancestor_parent j idx : ancestor j (HEAP_PARENT idx) = ancestor (S j) idx.
Proof.
  induction j as [|j IH]; [done|]. by rewrite ancestor_S, IH.
Qed.

Lemma HEAP_PARENT_0 : HEAP_PARENT 0 = 0.
Proof. reflexivity. Qed.

Lemma ancestor_range j idx : 0 ≤ idx → 0 ≤ ancestor j idx ≤ idx.
Proof.
  intros Hi. induction j as [|j IH]; [simpl; lia|].
  rewrite ancestor_S. destruct (Z.eq_dec (ancestor j idx) 0) as [->|Hne].
  - rewrite HEAP_PARENT_0. lia.
  - pose proof (HEAP_PARENT_range (ancestor j idx)). lia.
Qed.

Lemma ancestor_S_lt j idx : 0 ≤ idx → ancestor j idx ≠ 0 → ancestor (S j) idx < ancestor j idx.
Proof.
  intros Hi Hne. rewrite ancestor_S.
  pose proof (ancestor_range j idx Hi). pose proof (HEAP_PARENT_range (ancestor j idx)). lia.
Qed.

(** The loop of [heap_insert], started at a slot holding [v]: it performs
    some number [k] of swaps; [v] ends [k] levels up, each of the [k]
    ancestors it passed moved one level down and did not compare [-1] with
    [v], and the loop stopped at the root or below a parent comparing [-1]
    with [v]. *)
Lemma bubble_up_path fuel heap idx v :
  wf heap → 0 ≤ idx < count heap → (Z.to_nat idx < fuel)%nat →
  load (entries heap) idx = Some v →
  ∃ (k : nat) heap', bubble_up fuel heap idx (HEAP_PARENT idx) = Some heap' ∧
    same_shape heap heap' ∧
    load (entries heap') (ancestor k idx) = Some v ∧
    (∀ j, (j < k)%nat → ancestor j idx ≠ 0 ∧
       ∃ p, load (entries heap) (ancestor (S j) idx) = Some p ∧
            comparator heap p v ≠ -1 ∧
            load (entries heap') (ancestor j idx) = Some p) ∧
    (ancestor k idx = 0 ∨
       ∃ p, load (entries heap) (ancestor (S k) idx) = Some p ∧ comparator heap p v = -1) ∧
    (∀ i, (∀ j, (j ≤ k)%nat → i ≠ ancestor j idx) →
       load (entries heap') i = load (entries heap) i).
Proof.
  revert heap idx. induction fuel as [|fuel IH]; intros heap idx Hwf Hi Hf Hv; [lia|].
  simpl. destruct (Z.eqb_spec idx 0) as [->|Hne].
  { exists 0%nat, heap. split_and!; [done..| |by left|done]. intros; lia. }
  pose proof (HEAP_PARENT_range idx) as Hp. pose proof Hwf as [Hc Hl].
  unfold heap_property.
  destruct (heap_compare_in_range heap (HEAP_PARENT idx) idx) as (p & v' & Hload & Hv' & ->);
    [lia..|].
  rewrite Hv in Hv'. injection Hv' as <-. simpl.
  destruct (Z.eqb_spec (comparator heap p v) (-1)) as [E|Hcmp].
  { exists 0%nat, heap. split_and!; [done..| | |done]; [intros; lia|].
    right. exists p. done. }
  destruct (heap_swap_effect heap idx (HEAP_PARENT idx))
    as (x & y & h1 & Hx & Hy & -> & S1 & L1 & L2 & L3); [lia..|].
  rewrite Hv in Hx. injection Hx as <-. rewrite Hload in Hy. injection Hy as <-. simpl.
  assert (wf h1) as Hwf1.
  { destruct S1 as (E1 & E2 & _ & E3). unfold wf. rewrite E1, E2, E3. done. }
  destruct (IH h1 (HEAP_PARENT idx) Hwf1) as (k & h2 & -> & S2 & A & B & C & D);
    [destruct S1 as (-> & _); lia|lia|done|].
  assert (∀ j, ancestor j (HEAP_PARENT idx) < idx) as Hanc.
  { intros j. pose proof (ancestor_range j (HEAP_PARENT idx)). lia. }
  assert (∀ j, ancestor j (HEAP_PARENT idx) ≠ 0 →
            load (entries h1) (ancestor (S j) (HEAP_PARENT idx)) =
            load (entries heap) (ancestor (S j) (HEAP_PARENT idx))) as Hup.
  { intros j Hj. pose proof (ancestor_S_lt j (HEAP_PARENT idx)).
    pose proof (ancestor_range j (HEAP_PARENT idx)). apply L3; lia. }
  destruct S1 as (E1 & E2 & E3 & E4). destruct S2 as (F1 & F2 & F3 & F4).
  exists (S k), h2. split; [done|]. split; [repeat split; congruence|].
  split_and!.
  - by rewrite <- ancestor_parent.
  - intros [|j] Hj.
    + split; [done|]. exists p. split_and!; [done..|].
      change (ancestor 0 idx) with idx.
      rewrite D; [done|]. intros j' _. specialize (Hanc j'). lia.
    + rewrite <- ancestor_S, <- (ancestor_parent (S j)), <- (ancestor_parent j).
      destruct (B j) as (Hj0 & q & Hq1 & Hq2 & Hq3); [lia|].
      split; [done|]. exists q. rewrite <- Hup by done. rewrite <- E3. done.
  - rewrite <- ancestor_S, <- (ancestor_parent (S k)), <- (ancestor_parent k).
    destruct (Z.eq_dec (ancestor k (HEAP_PARENT idx)) 0) as [?|Hk0]; [by left|].
    destruct C as [?|(q & Hq1 & Hq2)]; [done|]. right. exists q.
    rewrite <- Hup by done. rewrite <- E3. done.
  - intros i Hfr. rewrite D.
    + apply L3.
      * apply (Hfr 0%nat). lia.
      * apply (Hfr 1%nat). lia.
    + intros j Hj. rewrite ancestor_parent. apply Hfr. lia.
Qed.

(** ** The heap property *)

Lemma HEAP_PARENT_LEFT idx : 0 ≤ idx → HEAP_PARENT (HEAP_LEFT idx) = idx.
Proof.
  intros Hi. unfold HEAP_PARENT, HEAP_LEFT. Z.to_euclidean_division_equations. lia.
Qed.

Lemma HEAP_PARENT_RIGHT idx : 0 ≤ idx → HEAP_PARENT (HEAP_RIGHT idx) = idx.
Proof.
  intros Hi. unfold HEAP_PARENT, HEAP_RIGHT. Z.to_euclidean_division_equations. lia.
Qed.

Lemma heapify_choice_two heap idx :
  wf heap → 0 ≤ idx → HEAP_RIGHT idx < count heap →
  ∃ s, heapify_choice heap idx = Some s ∧ (s = HEAP_LEFT idx ∨ s = HEAP_RIGHT idx).
Proof.
  intros Hwf Hi Hr.
  destruct (heapify_choice_range heap idx Hwf Hi) as (s & Hs & Hcase).
  exists s. split; [done|]. destruct Hcase as [->|[? _]]; [|done].
  unfold heapify_choice in Hs. rewrite (proj2 (Z.ltb_lt _ _) Hr) in Hs.
  destruct (heap_compare _ _ _) as [c|]; [|done]. simpl in Hs.
  destruct (c =? 0); injection Hs as Hs; [by right|by left].
Qed.

Lemma heapify_fuel_strict fuel heap idx :
  wf heap → strict_heap heap → 0 ≤ idx → heapify_fuel (S fuel) heap idx = Some heap.
Proof.
  intros Hwf Hstrict Hi. rewrite heapify_fuel_unfold.
  destruct (heapify_choice_range heap idx Hwf Hi) as (s & -> & Hs). simpl.
  destruct (Z.eqb_spec s idx) as [->|Hne]; [done|].
  destruct Hs as [?|[Hs Hrange]]; [done|].
  destruct (Hstrict s) as (p & c & Hp & Hc & Hcmp); [lia|].
  assert (HEAP_PARENT s = idx) as E
    by (destruct Hs as [->| ->]; [by apply HEAP_PARENT_LEFT|by apply HEAP_PARENT_RIGHT]).
  rewrite E in Hp. unfold heap_property, heap_compare. rewrite Hp, Hc. simpl.
  by rewrite Hcmp.
Qed.

Lemma bulk_heapify_strict fuel heap i :
  wf heap → strict_heap heap → (Z.to_nat (i + 1) < fuel)%nat →
  bulk_heapify fuel heap i = Some heap.
Proof.
  intros Hwf Hstrict. revert i. induction fuel as [|fuel IH]; intros i Hf; [lia|].
  simpl. destruct (Z.leb_spec 0 i) as [Hi|Hi]; [|done].
  unfold heap_heapify. rewrite heapify_fuel_strict by done. simpl.
  apply IH. lia.
Qed.

Lemma quot_half_range n : 0 ≤ n → -1 < (n - 1) `quot` 2.
Proof. intros Hn. Z.to_euclidean_division_equations. lia. Qed.

Lemma extract_n_empty n heap :
  count heap = 0 → extract_n n heap = Some (replicate n NULL, heap).
Proof.
  intros E. induction n as [|n IH]; [done|].
  simpl. rewrite heap_extract_empty by done. simpl. by rewrite IH.
Qed.

(** Extracting [count] times drains a well-formed heap. *)
Lemma extract_n_drains heap :
  wf heap →
  ∃ xs heap', extract_n (Z.to_nat (count heap)) heap = Some (xs, heap') ∧
    wf heap' ∧ count heap' = 0 ∧ xs ≡ₚ stored heap.
Proof.
  intros Hwf. remember (Z.to_nat (count heap)) as n eqn:En.
  revert heap Hwf En. induction n as [|n IH]; intros heap Hwf En.
  - exists [], heap. pose proof Hwf as [Hc _]. split_and!; [done..|lia|].
    unfold stored. by rewrite <- En.
  - pose proof Hwf as [Hc _].
    destruct (heap_extract_total heap Hwf) as (x & h1 & He & _ & Hwf1 & Ec & _ & _ & P);
      [lia|].
    destruct (IH h1 Hwf1) as (xs & h2 & Hx & Hwf2 & E0 & P2); [lia|].
    exists (x :: xs), h2. simpl. rewrite He. simpl. rewrite Hx. simpl.
    split_and!; [done..|]. by rewrite P2.
Qed.

(** ** [heap_insert] keeps the heap property

    For a comparator that orders the handles: [cmp a b ≠ 1] reads [a ≤ b]. *)

Section lawful_comparator.
Variable cmp : heap_compare_entries.
Hypothesis cmp_trans : ∀ a b c, cmp a b ≠ 1 → cmp b c ≠ 1 → cmp a c ≠ 1.
Hypothesis cmp_flip : ∀ a b, cmp a b ≠ -1 → cmp b a ≠ 1.

Lemma bubble_up_invariant fuel heap idx :
  wf heap → comparator heap = cmp → 0 ≤ idx < count heap →
  (Z.to_nat idx < fuel)%nat → almost_heap heap idx →
  ∃ heap', bubble_up fuel heap idx (HEAP_PARENT idx) = Some heap' ∧
    heap_invariant heap'.
Proof.
  revert heap idx. induction fuel as [|fuel IH];
    intros heap idx Hwf Hcmp Hi Hf [Hrest Hkids]; [lia|].
  simpl. destruct (Z.eqb_spec idx 0) as [->|Hne].
  { exists heap. split; [done|]. intros i p c Hr. apply Hrest; [done|lia]. }
  pose proof (HEAP_PARENT_range idx) as Hp. pose proof Hwf as [Hc Hl].
  unfold heap_property.
  destruct (heap_compare_in_range heap (HEAP_PARENT idx) idx) as (p & v & Hload & Hv & ->);
    [lia..|].
  simpl. destruct (Z.eqb_spec (comparator heap p v) (-1)) as [E|Hgt].
  { exists heap. split; [done|]. intros i p' c' Hr Hp' Hc'.
    destruct (Z.eq_dec i idx) as [->|Hi']; [|by eapply Hrest].
    rewrite Hload in Hp'. rewrite Hv in Hc'. simplify_eq. lia. }
  destruct (heap_swap_effect heap idx (HEAP_PARENT idx))
    as (x & y & h1 & Hx & Hy & -> & S1 & L1 & L2 & L3); [lia..|].
  rewrite Hv in Hx. injection Hx as <-. rewrite Hload in Hy. injection Hy as <-.
  simpl. destruct S1 as (E1 & E2 & E3 & E4).
  assert (wf h1) as Hwf1 by (unfold wf; rewrite E1, E2, E4; done).
  assert (cmp v p ≠ 1) as Hvp by (apply cmp_flip; congruence).
  apply IH; [done|congruence|lia|lia|]. split.
  - intros i p' c' Hr Hiq Hp' Hc'. rewrite E3, Hcmp. rewrite E1 in Hr.
    destruct (Z.eq_dec i idx) as [->|Hi'].
    { rewrite L2 in Hp'. rewrite L1 in Hc'. by simplify_eq. }
    rewrite L3 in Hc' by done.
    pose proof (HEAP_PARENT_range i) as Hpi.
    destruct (Z.eq_dec (HEAP_PARENT i) idx) as [Ei|Hpi1].
    { rewrite Ei, L1 in Hp'. injection Hp' as <-. rewrite <- Hcmp.
      by eapply (Hkids Hne i). }
    destruct (Z.eq_dec (HEAP_PARENT i) (HEAP_PARENT idx)) as [Ei|Hpi2].
    { rewrite Ei, L2 in Hp'. injection Hp' as <-.
      apply (cmp_trans _ p); [done|]. rewrite <- Hcmp.
      eapply (Hrest i); [done|done| |done]. by rewrite Ei. }
    rewrite L3 in Hp' by done. rewrite <- Hcmp. by eapply (Hrest i).
  - intros Hq0 c g x Hr Hpc Hg Hx. rewrite E3, Hcmp. rewrite E1 in Hr.
    pose proof (HEAP_PARENT_range (HEAP_PARENT idx)) as Hpq.
    pose proof (HEAP_PARENT_range c) as Hpc'.
    rewrite L3 in Hg by lia.
    assert (cmp g p ≠ 1) as Hgp.
    { rewrite <- Hcmp. eapply (Hrest (HEAP_PARENT idx)); [lia|lia|done..]. }
    destruct (Z.eq_dec c idx) as [->|Hci].
    { rewrite L1 in Hx. by injection Hx as <-. }
    rewrite L3 in Hx by lia.
    apply (cmp_trans _ p); [done|]. rewrite <- Hcmp.
    eapply (Hrest c); [done|done| |done]. by rewrite Hpc.
Qed.

(** Sift-up restores the heap property that [heap_heapify] loses. *)
Lemma heap_insert_invariant heap value :
  wf heap → comparator heap = cmp → count heap < capacity heap →
  heap_invariant heap →
  ∃ heap', heap_insert heap value = Some heap' ∧ heap_invariant heap'.
Proof.
  intros [Hc Hl] Hcmp Hlt Hinv. unfold heap_insert.
  rewrite (proj2 (Z.eqb_neq _ _)) by lia.
  rewrite store_in_range by lia. cbn [mbind option_bind].
  set (h1 := set_count _ _).
  assert (wf h1) as Hwf1 by (split; simpl; [lia|by rewrite length_insert]).
  apply bubble_up_invariant; [done|done|simpl; lia|lia|]. split.
  - intros i p c Hr Hi. simpl in Hr. pose proof (HEAP_PARENT_range i).
    simpl. rewrite !load_insert_ne by lia. apply Hinv. lia.
  - intros _ c g x Hr Hpc. simpl in Hr. pose proof (HEAP_PARENT_range c). lia.
Qed.
End lawful_comparator.

Lemma cmp_Z_trans a b c : cmp_Z a b ≠ 1 → cmp_Z b c ≠ 1 → cmp_Z a c ≠ 1.
Proof.
  unfold cmp_Z. destruct (Z.compare_spec a b), (Z.compare_spec b c),
    (Z.compare_spec a c); try done; lia.
Qed.

Lemma cmp_Z_flip a b : cmp_Z a b ≠ -1 → cmp_Z b a ≠ 1.
Proof.
  unfold cmp_Z. destruct (Z.compare_spec a b), (Z.compare_spec b a); try done; lia.
Qed.

(** Both example comparators are lawful, so on them [heap_insert] keeps the
    heap property. *)
Lemma heap_insert_invariant_num heap value :
  wf heap → comparator heap = cmp_num → count heap < capacity heap →
  heap_invariant heap →
  ∃ heap', heap_insert heap value = Some heap' ∧ heap_invariant heap'.
Proof.
  apply heap_insert_invariant; [apply cmp_Z_trans|apply cmp_Z_flip].
Qed.

Lemma heap_insert_invariant_score heap value :
  wf heap → comparator heap = cmp_score → count heap < capacity heap →
  heap_invariant heap →
  ∃ heap', heap_insert heap value = Some heap' ∧ heap_invariant heap'.
Proof.
  apply heap_insert_invariant; unfold cmp_score; intros *;
    [apply cmp_Z_trans|apply cmp_Z_flip].
Qed.

(** ** What inserting and then draining does return *)

Lemma insert_all_total vs heap :
  wf heap → Z.of_nat (length vs) ≤ capacity heap - count heap →
  ∃ heap', insert_all heap vs = Some heap' ∧ wf heap' ∧
    count heap' = count heap + Z.of_nat (length vs) ∧
    stored heap' ≡ₚ stored heap ++ vs.
Proof.
  revert heap. induction vs as [|v vs IH]; intros heap Hwf Hroom; simpl in *.
  { exists heap. split_and!; [done..|lia|by rewrite app_nil_r]. }
  destruct (heap_insert_total heap v Hwf) as (h1 & -> & Hwf1 & Ec & Ep & _ & P1); [lia|].
  simpl. destruct (IH h1 Hwf1) as (h2 & -> & Hwf2 & Ec2 & P2); [lia|].
  exists h2. split_and!; [done..|lia|]. by rewrite P2, P1, <- app_assoc.
Qed.

(** Whatever their order, the handles extracted are the handles inserted. *)
Lemma insert_then_extract_Permutation capacity cmp vs :
  Z.of_nat (length vs) ≤ capacity →
  ∃ heap xs heap', insert_all (heap_new capacity cmp) vs = Some heap ∧
    extract_n (length vs) heap = Some (xs, heap') ∧
    xs ≡ₚ vs ∧ count heap' = 0.
Proof.
  intros Hroom.
  destruct (insert_all_total vs (heap_new capacity cmp)) as (h & Hins & Hwf & Ec & P);
    [apply heap_new_wf; lia|simpl; lia|].
  destruct (extract_n_drains h Hwf) as (xs & h' & Hext & _ & E0 & Px).
  simpl in Ec. replace (Z.to_nat (count h)) with (length vs) in Hext by lia.
  exists h, xs, h'. split_and!; [done..| |done]. by rewrite Px, P.
Qed.

(** * The properties *)

(** C1, on the code.  The heap property does not survive every
    sequence of calls: after [heap_bulk_insert] of [5, 9, 1] into a new heap
    of capacity 3, and after inserting [1, 3, 2, 4] and extracting once from a
    new heap of capacity 4, the root compares [+1] with its right child. *)
Theorem heap_invariant_broken :
  (∃ heap', do_calls (heap_new 3 cmp_num) [BulkInsert [5; 9; 1]] = Some heap' ∧
     stored heap' = [5; 9; 1] ∧ ¬ heap_invariant heap') ∧
  (∃ heap', do_calls (heap_new 4 cmp_num)
              [Insert 1; Insert 3; Insert 2; Insert 4; Extract] = Some heap' ∧
     stored heap' = [3; 4; 2] ∧ ¬ heap_invariant heap').
Proof.
  split; (run_code; split; [reflexivity|]).
  - intros H. by apply (H 2 5 1).
  - intros H. by apply (H 2 3 2).
Qed.

(** C2, on the code.  Inserting [1, 3, 2, 4] one at a time into a new
    heap of capacity 4 and extracting four times returns [1, 3, 2, 4], which
    is not in non-decreasing order. *)
Theorem extraction_order_broken :
  ∃ heap xs heap',
    insert_all (heap_new 4 cmp_num) [1; 3; 2; 4] = Some heap ∧
    extract_n 4 heap = Some (xs, heap') ∧
    xs = [1; 3; 2; 4] ∧ ¬ nondecreasing cmp_num xs.
Proof.
  do 3 eexists. split; [vm_compute; reflexivity|].
  split; [vm_compute; reflexivity|]. split; [reflexivity|].
  intros H. by apply (H 1%nat 3 2).
Qed.

(** C3, as the code has it.  At a slot with both children in range
    [heap_heapify] takes one of the two children as [smallest_idx]; it leaves the heap as it is
    when the element at the slot compares [-1] with that child, and otherwise
    (also when the two compare equal) swaps them and goes on at the child's
    slot. *)
Theorem heap_heapify_two_children heap idx :
  wf heap → 0 ≤ idx → HEAP_RIGHT idx < count heap →
  ∃ c x y, (c = HEAP_LEFT idx ∨ c = HEAP_RIGHT idx) ∧
    load (entries heap) idx = Some x ∧ load (entries heap) c = Some y ∧
    (comparator heap x y = -1 → heap_heapify heap idx = Some heap) ∧
    (comparator heap x y ≠ -1 →
       ∃ heap1 heap', heap_swap heap idx c = Some heap1 ∧
         load (entries heap1) idx = Some y ∧ load (entries heap1) c = Some x ∧
         (∀ i, i ≠ idx → i ≠ c → load (entries heap1) i = load (entries heap) i) ∧
         heap_heapify heap1 c = Some heap' ∧
         heap_heapify heap idx = Some heap').
Proof.
  intros Hwf Hi Hr. pose proof Hwf as [Hc Hl].
  destruct (heapify_choice_two heap idx Hwf Hi Hr) as (s & Hs & Hcase).
  assert (idx < s < count heap) as Hrange
    by (unfold HEAP_LEFT, HEAP_RIGHT in *; lia).
  destruct (heap_compare_in_range heap idx s) as (x & y & Hx & Hy & Hcmp); [lia..|].
  exists s, x, y. split_and!; [done..| |].
  - intros E. unfold heap_heapify. rewrite heapify_fuel_unfold, Hs. simpl.
    rewrite (proj2 (Z.eqb_neq _ _)) by lia.
    unfold heap_property. rewrite Hcmp. simpl. by rewrite E.
  - intros Hgt.
    destruct (heap_swap_effect heap idx s)
      as (x' & y' & h1 & Hx' & Hy' & Hswap & S1 & L1 & L2 & L3); [lia..|].
    rewrite Hx in Hx'. injection Hx' as <-. rewrite Hy in Hy'. injection Hy' as <-.
    assert (wf h1) as Hwf1.
    { destruct S1 as (E1 & E2 & _ & E3). unfold wf. rewrite E1, E2, E3. done. }
    destruct S1 as (E1 & _).
    destruct (heapify_fuel_total (Z.to_nat (count heap)) h1 s Hwf1) as (h2 & Hrun & _);
      [lia..|].
    exists h1, h2. split_and!; [done..| |].
    + unfold heap_heapify. eapply heapify_fuel_mono; [done|lia].
    + unfold heap_heapify. rewrite heapify_fuel_unfold, Hs. simpl.
      rewrite (proj2 (Z.eqb_neq _ _)) by lia.
      unfold heap_property. rewrite Hcmp. simpl.
      rewrite (proj2 (Z.eqb_neq _ _)) by done. rewrite Hswap. done.
Qed.

Lemma heap_heapify_two_children_witness :
  wf heap_5 ∧ 0 ≤ 1 ∧ HEAP_RIGHT 1 < count heap_5 ∧
  ∃ c x y, (c = HEAP_LEFT 1 ∨ c = HEAP_RIGHT 1) ∧
    load (entries heap_5) 1 = Some x ∧ load (entries heap_5) c = Some y.
Proof.
  split; [concrete_wf|]. split; [lia|]. split; [reflexivity|].
  destruct (heap_heapify_two_children heap_5 1) as (c & x & y & Hc & Hx & Hy & _).
  - concrete_wf.
  - lia.
  - reflexivity.
  - exists c, x, y. split; [exact Hc|]. split; [exact Hx|exact Hy].
Defined.

(** Against C3 in the description's wording: at index 1 the left child [51]
    is the smaller child ([51] against [70] compares [-1]) and does not rank strictly below the
    element [50] at the index (they compare [0] both ways), yet
    [heap_heapify] swaps the two. *)
Lemma heap_heapify_equal_child_counterexample :
  bulk_copy 5 (heap_new 5 cmp_score) 0 [10; 50; 20; 51; 70] = Some heap_5 ∧
  heap_heapify heap_5 2 = Some heap_5 ∧
  HEAP_RIGHT 1 < count heap_5 ∧
  load (entries heap_5) 1 = Some 50 ∧
  load (entries heap_5) (HEAP_LEFT 1) = Some 51 ∧
  load (entries heap_5) (HEAP_RIGHT 1) = Some 70 ∧
  comparator heap_5 51 70 = -1 ∧
  comparator heap_5 51 50 = 0 ∧ comparator heap_5 50 51 = 0 ∧
  ∃ heap', heap_heapify heap_5 1 = Some heap' ∧
    stored heap' = [10; 51; 20; 50; 70] ∧ stored heap' ≠ stored heap_5.
Proof.
  split_and!; [reflexivity..|].
  run_code. split; [reflexivity|discriminate].
Qed.

(** C4, as the code has it.  On a heap with room, [heap_insert] puts the
    value in slot [count], adds one to [count], and swaps it with its parent exactly while
    the parent does not compare [-1] with it: the value ends [k] levels up,
    the [k] ancestors it passed each moved one level down and none of them
    compared [-1] with it, it stopped at the root or under a parent comparing
    [-1] with it, and no other slot changed.  A parent comparing equal ([0])
    is swapped. *)
Theorem heap_insert_sift_up heap value :
  wf heap → count heap < capacity heap →
  ∃ (k : nat) heap', heap_insert heap value = Some heap' ∧
    count heap' = count heap + 1 ∧
    load (entries heap') (ancestor k (count heap)) = Some value ∧
    (∀ j, (j < k)%nat → ancestor j (count heap) ≠ 0 ∧
       ∃ p, load (entries heap) (ancestor (S j) (count heap)) = Some p ∧
            comparator heap p value ≠ -1 ∧
            load (entries heap') (ancestor j (count heap)) = Some p) ∧
    (ancestor k (count heap) = 0 ∨
       ∃ p, load (entries heap) (ancestor (S k) (count heap)) = Some p ∧
            comparator heap p value = -1) ∧
    (∀ i, (∀ j, (j ≤ k)%nat → i ≠ ancestor j (count heap)) →
       load (entries heap') i = load (entries heap) i) ∧
    (∀ p, 0 < count heap →
       load (entries heap) (HEAP_PARENT (count heap)) = Some p →
       comparator heap p value = 0 →
       (1 ≤ k)%nat ∧ load (entries heap') (count heap) = Some p).
Proof.
  intros [Hc Hl] Hlt. unfold heap_insert.
  rewrite (proj2 (Z.eqb_neq _ _)) by lia.
  rewrite store_in_range by lia. cbn [mbind option_bind].
  set (h1 := set_count _ _).
  assert (wf h1) as Hwf1 by (split; simpl; [lia|by rewrite length_insert]).
  assert (load (entries h1) (count heap) = Some value) as Hv
    by (apply load_insert_eq; lia).
  assert (∀ i, i ≠ count heap → load (entries h1) i = load (entries heap) i) as Hold
    by (intros i Hi; simpl; apply load_insert_ne; lia).
  destruct (bubble_up_path (S (Z.to_nat (count heap))) h1 (count heap) value Hwf1)
    as (k & h2 & -> & (E1 & _) & A & B & C & D); [simpl; lia..|done|].
  assert (∀ j, ancestor j (count heap) ≠ 0 →
            load (entries h1) (ancestor (S j) (count heap)) =
            load (entries heap) (ancestor (S j) (count heap))) as Hup.
  { intros j Hj. pose proof (ancestor_S_lt j (count heap)).
    pose proof (ancestor_range j (count heap)). apply Hold. lia. }
  assert (∀ j, (j < k)%nat → ancestor j (count heap) ≠ 0 ∧
       ∃ p, load (entries heap) (ancestor (S j) (count heap)) = Some p ∧
            comparator heap p value ≠ -1 ∧
            load (entries h2) (ancestor j (count heap)) = Some p) as B'.
  { intros j Hj. destruct (B j Hj) as (Hj0 & p & Hp1 & Hp2 & Hp3).
    split; [done|]. exists p. by rewrite <- Hup. }
  assert (ancestor k (count heap) = 0 ∨
       ∃ p, load (entries heap) (ancestor (S k) (count heap)) = Some p ∧
            comparator heap p value = -1) as C'.
  { destruct (Z.eq_dec (ancestor k (count heap)) 0) as [?|Hk0]; [by left|].
    destruct C as [?|(p & Hp1 & Hp2)]; [done|]. right. exists p. by rewrite <- Hup. }
  exists k, h2. split_and!; [done|by rewrite E1|done..| |].
  - intros i Hfr. rewrite D by done. apply Hold. apply (Hfr 0%nat). lia.
  - intros p Hpos Hp Hcmp. destruct k as [|k].
    + destruct C' as [C'|(q & Hq1 & Hq2)]; [simpl in C'; lia|].
      change (ancestor 1 (count heap)) with (HEAP_PARENT (count heap)) in Hq1.
      rewrite Hp in Hq1. injection Hq1 as <-. lia.
    + split; [lia|]. destruct (B' 0%nat) as (_ & q & Hq1 & _ & Hq3); [lia|].
      change (ancestor 1 (count heap)) with (HEAP_PARENT (count heap)) in Hq1.
      rewrite Hp in Hq1. injection Hq1 as <-. done.
Qed.

Lemma heap_insert_sift_up_witness :
  wf heap_50 ∧ count heap_50 < capacity heap_50 ∧
  ∃ heap', heap_insert heap_50 51 = Some heap' ∧ load (entries heap') 1 = Some 50.
Proof.
  split; [concrete_wf|]. split; [simpl; lia|].
  destruct (heap_insert_sift_up heap_50 51)
    as (k & heap' & Hrun & _ & _ & _ & _ & _ & Htie).
  - concrete_wf.
  - simpl; lia.
  - exists heap'. split; [exact Hrun|].
    apply (Htie 50); [simpl; lia|reflexivity|reflexivity].
Defined.

(** Against C4 in the description's wording: the parent [50] compares equal
    to the inserted [51] under the score comparator, and the two are swapped all the same; without
    a swap the stored handles would be [50, 51]. *)
Lemma heap_insert_equal_parent_counterexample :
  heap_insert (heap_new 2 cmp_score) 50 = Some heap_50 ∧
  load (entries heap_50) (HEAP_PARENT (count heap_50)) = Some 50 ∧
  comparator heap_50 50 51 = 0 ∧
  ∃ heap', heap_insert heap_50 51 = Some heap' ∧
    stored heap' = [51; 50] ∧ stored heap' ≠ [50; 51].
Proof.
  split_and!; [reflexivity..|].
  run_code. split; [reflexivity|discriminate].
Qed.

(** C5, on the code.  [heap_bulk_insert] of [5, 9, 1] into a new heap
    followed by three extractions returns [5, 1, 9]; inserting the same values
    one at a time and extracting three times returns [1, 5, 9]. *)
Theorem bulk_differs_from_sequential :
  ∃ bulk seq bulk' seq' xs ys,
    heap_bulk_insert (heap_new 3 cmp_num) 3 [5; 9; 1] = Some bulk ∧
    insert_all (heap_new 3 cmp_num) [5; 9; 1] = Some seq ∧
    extract_n 3 bulk = Some (xs, bulk') ∧
    extract_n 3 seq = Some (ys, seq') ∧
    xs = [5; 1; 9] ∧ ys = [1; 5; 9] ∧ xs ≠ ys.
Proof.
  do 6 eexists. split_and!; [vm_compute; reflexivity..|reflexivity|reflexivity|discriminate].
Qed.

(** C6, as the code has it.  On a full heap [heap_insert] changes nothing.
    [heap_bulk_insert] copies no value and leaves [count], [capacity] and the
    multiset of stored handles as they were, but it still runs its heapify
    pass, which may reorder the entries; the entries are unchanged when every
    parent compares [-1] with each of its children. *)
Theorem full_heap_insert_noop heap :
  wf heap → count heap = capacity heap →
  (∀ value, heap_insert heap value = Some heap) ∧
  (∀ values, ∃ heap',
     heap_bulk_insert heap (Z.of_nat (length values)) values = Some heap' ∧
     count heap' = capacity heap ∧ capacity heap' = capacity heap ∧
     comparator heap' = comparator heap ∧
     stored heap' ≡ₚ stored heap ∧
     (strict_heap heap → heap' = heap)).
Proof.
  intros Hwf Hfull. split.
  { intros value. by apply heap_insert_full. }
  intros values.
  destruct (heap_bulk_insert_total heap values Hwf) as (h' & Hrun & _ & Ec & Ep & Em & P).
  replace (Z.min _ _) with 0 in Ec, P by lia.
  exists h'. split_and!; [done|lia|done|done| |].
  - rewrite P. simpl. by rewrite app_nil_r.
  - intros Hstrict. unfold heap_bulk_insert in Hrun.
    replace (if _ >? _ then _ else _) with 0 in Hrun
      by (destruct (Z.gtb_spec (capacity heap - count heap) (Z.of_nat (length values))); lia).
    simpl in Hrun. rewrite bulk_heapify_strict in Hrun; [congruence|done|done|].
    pose proof Hwf as [Hc _]. pose proof (quot_half_range (count heap)). lia.
Qed.

Lemma full_heap_insert_noop_witness :
  wf heap_full ∧ count heap_full = capacity heap_full ∧
  heap_insert heap_full 7 = Some heap_full.
Proof.
  split; [concrete_wf|]. split; [reflexivity|].
  apply (full_heap_insert_noop heap_full); [concrete_wf|reflexivity].
Defined.

(** Against C6 in the description's wording, for [heap_bulk_insert]: on the
    full heap holding [51, 50] it leaves [50, 51]. *)
Lemma heap_bulk_insert_full_counterexample :
  insert_all (heap_new 2 cmp_score) [50; 51] = Some heap_full ∧
  count heap_full = capacity heap_full ∧
  ∃ heap', heap_bulk_insert heap_full 1 [7] = Some heap' ∧
    stored heap' = [50; 51] ∧ stored heap' ≠ stored heap_full.
Proof.
  split_and!; [reflexivity..|].
  run_code. split; [reflexivity|discriminate].
Qed.

(** C7.  [heap_bulk_insert] adds [min (len values) (capacity - count)] to
    [count]; the stored handles afterwards are the old ones and that many
    leading values of the list; and over any sequence of calls [count] stays
    within [capacity]. *)
Theorem heap_bulk_insert_truncates heap values :
  wf heap →
  (∃ heap', heap_bulk_insert heap (Z.of_nat (length values)) values = Some heap' ∧
     count heap' =
       count heap + Z.min (Z.of_nat (length values)) (capacity heap - count heap) ∧
     capacity heap' = capacity heap ∧
     stored heap' ≡ₚ
       stored heap ++
       take (Z.to_nat (Z.min (Z.of_nat (length values)) (capacity heap - count heap))) values ∧
     count heap' ≤ capacity heap') ∧
  (∀ cs, ∃ heap'', do_calls heap cs = Some heap'' ∧
     capacity heap'' = capacity heap ∧ 0 ≤ count heap'' ≤ capacity heap'').
Proof.
  intros Hwf. split.
  - destruct (heap_bulk_insert_total heap values Hwf) as (h' & Hrun & Hwf' & Ec & Ep & _ & P).
    exists h'. split_and!; [done..|]. destruct Hwf'. lia.
  - intros cs. destruct (do_calls_total cs heap Hwf) as (h' & Hrun & [Hc _] & Ep & _).
    by exists h'.
Qed.

Lemma heap_bulk_insert_truncates_witness :
  wf (heap_new 2 cmp_num) ∧
  ∃ heap', heap_bulk_insert (heap_new 2 cmp_num) 3 [7; 3; 9] = Some heap' ∧
    count heap' = 2.
Proof.
  split; [concrete_wf|].
  destruct (heap_bulk_insert_truncates (heap_new 2 cmp_num) [7; 3; 9])
    as [(heap' & Hrun & Hc & _) _].
  - concrete_wf.
  - exists heap'. split; [exact Hrun|]. rewrite Hc. reflexivity.
Defined.

(** C8.  On an empty heap [heap_extract] returns [NULL], the empty signal,
    and leaves the heap as it was, however often it is called. *)
Theorem heap_extract_empty_signal heap :
  count heap = 0 →
  heap_extract heap = Some (NULL, heap) ∧
  ∀ n, extract_n n heap = Some (replicate n NULL, heap).
Proof.
  intros E. split; [by apply heap_extract_empty|].
  intros n. by apply extract_n_empty.
Qed.

Lemma heap_extract_empty_signal_witness :
  count (heap_new 3 cmp_num) = 0 ∧
  extract_n 2 (heap_new 3 cmp_num) = Some ([NULL; NULL], heap_new 3 cmp_num).
Proof.
  split; [reflexivity|].
  apply (heap_extract_empty_signal (heap_new 3 cmp_num)). reflexivity.
Defined.

(** C9.  The stored handles change only as follows: [heap_insert] with room
    adds the value, [heap_extract] on a non-empty heap returns [entries[0]]
    and removes one occurrence of it, [heap_bulk_insert] adds the leading
    values that fit, and [heap_insert] on a full heap and [heap_extract] on
    an empty one change nothing. *)
Theorem stored_multiset_preserved heap :
  wf heap →
  (∀ value, count heap < capacity heap →
     ∃ heap', heap_insert heap value = Some heap' ∧
       count heap' = count heap + 1 ∧ stored heap' ≡ₚ value :: stored heap) ∧
  (0 < count heap →
     ∃ x heap', heap_extract heap = Some (x, heap') ∧
       load (entries heap) 0 = Some x ∧
       count heap' = count heap - 1 ∧ stored heap ≡ₚ x :: stored heap') ∧
  (∀ values, ∃ heap',
     heap_bulk_insert heap (Z.of_nat (length values)) values = Some heap' ∧
     stored heap' ≡ₚ
       stored heap ++
       take (Z.to_nat (Z.min (Z.of_nat (length values)) (capacity heap - count heap))) values) ∧
  (∀ value, count heap = capacity heap → heap_insert heap value = Some heap) ∧
  (count heap = 0 → heap_extract heap = Some (NULL, heap)).
Proof.
  intros Hwf. split_and!.
  - intros value Hlt.
    destruct (heap_insert_total heap value Hwf Hlt) as (h' & Hrun & _ & Ec & _ & _ & P).
    exists h'. split_and!; [done..|]. rewrite P. symmetry. apply Permutation_cons_append.
  - intros Hpos.
    destruct (heap_extract_total heap Hwf Hpos) as (x & h' & Hrun & Hx & _ & Ec & _ & _ & P).
    by exists x, h'.
  - intros values.
    destruct (heap_bulk_insert_total heap values Hwf) as (h' & Hrun & _ & _ & _ & _ & P).
    by exists h'.
  - intros value. by apply heap_insert_full.
  - by apply heap_extract_empty.
Qed.

Lemma stored_multiset_preserved_witness :
  wf heap_50 ∧
  ∃ x heap', heap_extract heap_50 = Some (x, heap') ∧ x = 50 ∧ count heap' = 0.
Proof.
  split; [concrete_wf|].
  destruct (stored_multiset_preserved heap_50) as (_ & Hext & _).
  - concrete_wf.
  - destruct Hext as (x & heap' & Hrun & Hx & Hc & _); [simpl; lia|].
    exists x, heap'. split; [exact Hrun|]. split; [|rewrite Hc; reflexivity].
    simpl in Hx. injection Hx as <-. reflexivity.
Defined.

(** C10.  The empty signal is the null handle: whatever the comparator, the
    heap that holds only [NULL] is not empty and [heap_extract] returns from
    it the very value it returns from an empty heap. *)
Theorem null_handle_ambiguity (cmp : heap_compare_entries) :
  ∃ heap heap',
    heap_insert (heap_new 1 cmp) NULL = Some heap ∧
    0 < count heap ∧ stored heap = [NULL] ∧
    heap_extract heap = Some (NULL, heap') ∧
    fst <$> heap_extract heap = fst <$> heap_extract (heap_new 1 cmp).
Proof.
  do 2 eexists. split_and!; reflexivity.
Qed.

(** * Further properties of the code *)

(** ** Lawful comparators *)

Lemma lawful_refl cmp a : lawful cmp → cmp a a ≠ 1.
Proof.
  intros [_ Hflip] E. apply (Hflip a a); [lia|done].
Qed.

Lemma cmp_num_lawful : lawful cmp_num.
Proof. split; [apply cmp_Z_trans|apply cmp_Z_flip]. Qed.

Lemma cmp_score_lawful : lawful cmp_score.
Proof.
  split; unfold cmp_score; intros *; [apply cmp_Z_trans|apply cmp_Z_flip].
Qed.

(** In a heap with the heap property the root is below every stored slot. *)
Lemma root_below_slot heap r :
  wf heap → lawful (comparator heap) → heap_invariant heap →
  load (entries heap) 0 = Some r →
  ∀ i, 0 ≤ i → ∀ x, i < count heap → load (entries heap) i = Some x →
    comparator heap r x ≠ 1.
Proof.
  intros [Hc Hl] Hlaw Hinv Hr. apply (Z_lt_induction (λ i, ∀ x, _ → _ → _)).
  intros i IH x Hi Hx. destruct (Z.eq_dec i 0) as [->|Hne].
  { rewrite Hr in Hx. injection Hx as <-. by apply lawful_refl. }
  pose proof (load_lt _ _ _ Hx) as Hrange.
  pose proof (HEAP_PARENT_range i) as Hp.
  destruct (load_in_range (entries heap) (HEAP_PARENT i)) as [y Hy]; [lia|].
  destruct Hlaw as [Htrans _]. apply (Htrans _ y).
  - apply (IH (HEAP_PARENT i)); [lia|lia|done].
  - apply (Hinv i); [lia|done|done].
Qed.

Lemma stored_lookup heap x :
  wf heap → x ∈ stored heap →
  ∃ i, 0 ≤ i < count heap ∧ load (entries heap) i = Some x.
Proof.
  intros [Hc Hl] [n Hn]%list_elem_of_lookup_1.
  apply lookup_take_Some in Hn as [Hn Hlt].
  exists (Z.of_nat n). split; [lia|]. apply load_Some. split; [lia|].
  by rewrite Nat2Z.id.
Qed.

Lemma heap_3_invariant : heap_invariant heap_3.
Proof.
  intros i p c Hi Hp Hc.
  assert (i = 1 ∨ i = 2) as [-> | ->] by (simpl in Hi; lia);
    vm_compute in Hp, Hc; injection Hp as <-; injection Hc as <-; discriminate.
Qed.

(** ** Inserting *)

Lemma heap_insert_invariant_any heap value :
  wf heap → lawful (comparator heap) → heap_invariant heap →
  ∃ heap', heap_insert heap value = Some heap' ∧ wf heap' ∧
    comparator heap' = comparator heap ∧ heap_invariant heap'.
Proof.
  intros Hwf [Htrans Hflip] Hinv. pose proof Hwf as [Hc _].
  destruct (Z.eq_dec (count heap) (capacity heap)) as [Hfull|Hroom].
  { exists heap. by rewrite heap_insert_full. }
  destruct (heap_insert_total heap value Hwf) as (h1 & Hrun & Hwf1 & _ & _ & Hcmp & _);
    [lia|].
  destruct (heap_insert_invariant (comparator heap) Htrans Hflip heap value)
    as (h2 & Hrun2 & Hinv2); [done|done|lia|done|].
  rewrite Hrun in Hrun2. injection Hrun2 as <-. by exists h1.
Qed.

Lemma insert_all_invariant vs heap :
  wf heap → lawful (comparator heap) → heap_invariant heap →
  ∃ heap', insert_all heap vs = Some heap' ∧ wf heap' ∧
    comparator heap' = comparator heap ∧ heap_invariant heap'.
Proof.
  revert heap. induction vs as [|v vs IH]; intros heap Hwf Hlaw Hinv; simpl.
  { by exists heap. }
  destruct (heap_insert_invariant_any heap v Hwf Hlaw Hinv) as (h1 & -> & Hwf1 & E1 & Hinv1).
  simpl. destruct (IH h1 Hwf1) as (h2 & -> & Hwf2 & E2 & Hinv2); [by rewrite E1|done|].
  exists h2. split_and!; [done..|congruence|done].
Qed.

(** What a run of [heap_insert] calls stores: the values that fit. *)
Lemma insert_all_spec vs heap :
  wf heap →
  ∃ heap', insert_all heap vs = Some heap' ∧ wf heap' ∧
    capacity heap' = capacity heap ∧ comparator heap' = comparator heap ∧
    count heap' = count heap + Z.min (Z.of_nat (length vs)) (capacity heap - count heap) ∧
    stored heap' ≡ₚ stored heap ++ take (Z.to_nat (capacity heap - count heap)) vs.
Proof.
  revert heap. induction vs as [|v vs IH]; intros heap Hwf; pose proof Hwf as [Hc Hl].
  { exists heap. simpl. split_and!; [done..|lia|]. by rewrite take_nil, app_nil_r. }
  simpl insert_all. destruct (Z.eq_dec (count heap) (capacity heap)) as [Hfull|Hroom].
  - rewrite heap_insert_full by done. simpl.
    destruct (IH heap Hwf) as (h2 & -> & Hwf2 & Ep & Em & Ec & P).
    exists h2. split_and!; [done..|simpl length; lia|].
    rewrite P. by replace (Z.to_nat (capacity heap - count heap)) with 0%nat by lia.
  - destruct (heap_insert_total heap v Hwf) as (h1 & -> & Hwf1 & Ec1 & Ep1 & Em1 & P1);
      [lia|].
    simpl. destruct (IH h1 Hwf1) as (h2 & -> & Hwf2 & Ep & Em & Ec & P).
    exists h2. split_and!; [done|done|congruence|congruence|simpl length; lia|].
    rewrite P, P1, Ep1, Ec1, <- app_assoc. simpl.
    replace (Z.to_nat (capacity heap - count heap))
      with (S (Z.to_nat (capacity heap - (count heap + 1)))) by lia.
    done.
Qed.

(** X1.  For a lawful comparator [heap_insert] keeps the heap property,
    whether the value is stored or, the heap being full, dropped; so does
    any run of [heap_insert] calls. *)
Theorem heap_insert_keeps_heap_property heap :
  wf heap → lawful (comparator heap) → heap_invariant heap →
  (∀ value, ∃ heap', heap_insert heap value = Some heap' ∧ heap_invariant heap') ∧
  (∀ values, ∃ heap', insert_all heap values = Some heap' ∧ heap_invariant heap').
Proof.
  intros Hwf Hlaw Hinv. split.
  - intros value.
    destruct (heap_insert_invariant_any heap value Hwf Hlaw Hinv) as (h' & Hrun & _ & _ & H').
    by exists h'.
  - intros values.
    destruct (insert_all_invariant values heap Hwf Hlaw Hinv) as (h' & Hrun & _ & _ & H').
    by exists h'.
Qed.

Lemma heap_insert_keeps_heap_property_witness :
  wf heap_3 ∧ lawful (comparator heap_3) ∧ heap_invariant heap_3 ∧
  ∃ heap', heap_insert heap_3 0 = Some heap' ∧ heap_invariant heap'.
Proof.
  split; [concrete_wf|]. split; [exact cmp_num_lawful|]. split; [exact heap_3_invariant|].
  apply (heap_insert_keeps_heap_property heap_3);
    [concrete_wf|exact cmp_num_lawful|exact heap_3_invariant].
Defined.

(** X2.  On a non-empty heap with the heap property, [heap_extract] returns a
    stored handle that no stored handle ranks below. *)
Theorem heap_extract_returns_minimum heap :
  wf heap → lawful (comparator heap) → heap_invariant heap → 0 < count heap →
  ∃ x heap', heap_extract heap = Some (x, heap') ∧ x ∈ stored heap ∧
    ∀ y, y ∈ stored heap → comparator heap x y ≠ 1.
Proof.
  intros Hwf Hlaw Hinv Hpos.
  destruct (heap_extract_total heap Hwf Hpos) as (x & h' & Hrun & Hx & _ & _ & _ & _ & P).
  exists x, h'. split; [done|]. split.
  - rewrite <- P. apply list_elem_of_here.
  - intros y Hy. destruct (stored_lookup heap y Hwf Hy) as (i & Hi & Hload).
    apply (root_below_slot heap x Hwf Hlaw Hinv Hx i); [lia|lia|done].
Qed.

Lemma heap_extract_returns_minimum_witness :
  wf heap_3 ∧ lawful (comparator heap_3) ∧ heap_invariant heap_3 ∧ 0 < count heap_3 ∧
  ∃ x heap', heap_extract heap_3 = Some (x, heap') ∧ comparator heap_3 x 2 ≠ 1.
Proof.
  split; [concrete_wf|]. split; [exact cmp_num_lawful|].
  split; [exact heap_3_invariant|]. split; [reflexivity|].
  destruct (heap_extract_returns_minimum heap_3) as (x & heap' & Hrun & _ & Hmin);
    [concrete_wf|exact cmp_num_lawful|exact heap_3_invariant|reflexivity|].
  exists x, heap'. split; [exact Hrun|]. apply Hmin.
  apply (list_elem_of_lookup_2 _ 2%nat). reflexivity.
Defined.

(** X3.  A run of [heap_insert] calls stores the leading values that fit and
    drops the rest: [count] grows by [min (len values) (capacity - count)]
    and never passes [capacity]. *)
Theorem insert_all_capacity_bound heap values :
  wf heap →
  ∃ heap', insert_all heap values = Some heap' ∧
    count heap' = Z.min (count heap + Z.of_nat (length values)) (capacity heap) ∧
    capacity heap' = capacity heap ∧
    stored heap' ≡ₚ stored heap ++ take (Z.to_nat (capacity heap - count heap)) values ∧
    (capacity heap ≤ count heap + Z.of_nat (length values) →
       count heap' = capacity heap ∧ ∀ value, heap_insert heap' value = Some heap').
Proof.
  intros Hwf.
  destruct (insert_all_spec values heap Hwf) as (h' & Hrun & _ & Ep & _ & Ec & P).
  exists h'. split_and!; [done|lia|done|done|].
  intros Hover. assert (count h' = capacity heap) as E by lia.
  split; [done|]. intros value. apply heap_insert_full. congruence.
Qed.

Lemma insert_all_capacity_bound_witness :
  wf heap_3 ∧
  ∃ heap', insert_all heap_3 [7; 8; 9] = Some heap' ∧ count heap' = 4.
Proof.
  split; [concrete_wf|].
  destruct (insert_all_capacity_bound heap_3 [7; 8; 9]) as (heap' & Hrun & Hc & _);
    [concrete_wf|].
  exists heap'. split; [exact Hrun|]. rewrite Hc. reflexivity.
Defined.



(** ** Extracting *)

(** X5.  Calling [heap_extract] [n] times on a heap of at most [n] handles
    returns the stored handles, in some order, followed by [NULL] for every
    call made after the heap ran empty, and leaves the heap empty. *)
Theorem extract_n_past_empty n heap :
  wf heap → count heap ≤ Z.of_nat n →
  ∃ xs heap', extract_n n heap =
      Some (xs ++ replicate (n - Z.to_nat (count heap)) NULL, heap') ∧
    xs ≡ₚ stored heap ∧ count heap' = 0 ∧ capacity heap' = capacity heap.
Proof.
  revert heap. induction n as [|n IH]; intros heap Hwf Hn; pose proof Hwf as [Hc _].
  { exists [], heap. split_and!; [done| |lia|done].
    unfold stored. by replace (Z.to_nat (count heap)) with 0%nat by lia. }
  destruct (Z.eq_dec (count heap) 0) as [E0|Hne].
  - exists [], heap. rewrite extract_n_empty by done. split_and!; [|  |done..].
    + by rewrite E0.
    + unfold stored. by rewrite E0.
  - destruct (heap_extract_total heap Hwf) as (x & h1 & He & _ & Hwf1 & Ec & Ep & _ & P);
      [lia|].
    destruct (IH h1 Hwf1) as (xs & h2 & Hx & P2 & E0 & Ep2); [lia|].
    exists (x :: xs), h2. simpl extract_n. rewrite He. simpl. rewrite Hx. simpl.
    split_and!; [|by rewrite P2|done|congruence].
    by replace (S n - Z.to_nat (count heap))%nat
      with (n - Z.to_nat (count h1))%nat by lia.
Qed.

Lemma extract_n_past_empty_witness :
  wf heap_50 ∧ count heap_50 ≤ Z.of_nat 3 ∧
  ∃ heap', extract_n 3 heap_50 = Some ([50; NULL; NULL], heap').
Proof.
  split; [concrete_wf|]. split; [simpl; lia|].
  destruct (extract_n_past_empty 3 heap_50) as (xs & heap' & Hrun & Hperm & _);
    [concrete_wf|simpl; lia|].
  exists heap'. rewrite Hrun.
  apply Permutation_singleton_r in Hperm. rewrite Hperm. reflexivity.
Defined.



(** ** [heap_bulk_insert] with any count *)

(** X7.  [heap_bulk_insert] reads its [count] argument, not the length of
    the array behind [values]: it stores the leading
    [min count (capacity - count)] values, and none when [count] is zero or
    negative. *)
Theorem heap_bulk_insert_count_argument heap count_arg values :
  wf heap → count_arg ≤ Z.of_nat (length values) →
  ∃ heap', heap_bulk_insert heap count_arg values = Some heap' ∧
    count heap' = count heap + Z.max 0 (Z.min count_arg (capacity heap - count heap)) ∧
    capacity heap' = capacity heap ∧
    stored heap' ≡ₚ
      stored heap ++
      take (Z.to_nat (Z.min count_arg (capacity heap - count heap))) values.
Proof.
  intros Hwf Hlen. pose proof Hwf as [Hc Hl]. unfold heap_bulk_insert.
  set (k := Z.min count_arg (capacity heap - count heap)).
  assert ((if capacity heap - count heap >? count_arg
           then count_arg else capacity heap - count heap) = k) as ->.
  { unfold k. destruct (Z.gtb_spec (capacity heap - count heap) count_arg); lia. }
  destruct (bulk_copy_total (Z.to_nat k) heap 0 values Hwf)
    as (h1 & -> & Hwf1 & Ec & Ep & Em & Es); [lia..|].
  simpl. set (i0 := (count h1 - 1) `quot` 2).
  destruct (bulk_heapify_total (Z.to_nat (i0 + 2)) h1 i0 Hwf1) as (h2 & -> & K).
  { pose proof Hwf1 as [Hc1 _]. pose proof (quot_half_range (count h1)). lia. }
  exists h2. split; [done|].
  destruct K as [(-> & -> & _ & _) ->]. split_and!; [lia|done|].
  rewrite Es. simpl. by rewrite drop_0.
Qed.

Lemma heap_bulk_insert_count_argument_witness :
  wf (heap_new 4 cmp_num) ∧ 2 ≤ Z.of_nat (length [7; 3; 9]) ∧
  ∃ heap', heap_bulk_insert (heap_new 4 cmp_num) 2 [7; 3; 9] = Some heap' ∧
    count heap' = 2 ∧ stored heap' ≡ₚ [7; 3].
Proof.
  split; [concrete_wf|]. split; [simpl; lia|].
  destruct (heap_bulk_insert_count_argument (heap_new 4 cmp_num) 2 [7; 3; 9])
    as (heap' & Hrun & Hc & _ & Hperm); [concrete_wf|simpl; lia|].
  exists heap'. split; [exact Hrun|]. split; [rewrite Hc; reflexivity|exact Hperm].
Defined.

(** ** What [heap_heapify] leaves alone *)

Lemma descends_refl idx : descends idx idx.
Proof. by exists 0%nat. Qed.

Lemma descends_child s idx i : HEAP_PARENT s = idx → descends i s → descends i idx.
Proof.
  intros Hs [j Hj]. exists (S j). by rewrite ancestor_S, Hj.
Qed.


Lemma heapify_fuel_frame fuel heap idx heap' :
  wf heap → 0 ≤ idx → heapify_fuel fuel heap idx = Some heap' →
  ∀ i, ¬ descends i idx ∨ count heap ≤ i →
    load (entries heap') i = load (entries heap) i.
Proof.
  revert heap idx. induction fuel as [|fuel IH]; intros heap idx Hwf Hi Hrun i Hfar;
    [done|].
  rewrite heapify_fuel_unfold in Hrun.
  destruct (heapify_choice_range heap idx Hwf Hi) as (s & Hs & Hcase).
  rewrite Hs in Hrun. simpl in Hrun.
  destruct (Z.eqb_spec s idx) as [Heq|Hne]; [by injection Hrun as <-|].
  destruct Hcase as [?|[Hchild Hrange]]; [done|].
  pose proof Hwf as [Hc Hl]. unfold heap_property in Hrun.
  destruct (heap_compare_in_range heap idx s) as (x & y & _ & _ & Hcmp); [lia..|].
  rewrite Hcmp in Hrun. simpl in Hrun.
  destruct (_ =? -1); [by injection Hrun as <-|].
  destruct (heap_swap_effect heap idx s)
    as (x' & y' & h1 & _ & _ & Hswap & (E1 & E2 & _ & E4) & _ & _ & L3); [lia..|].
  rewrite Hswap in Hrun. simpl in Hrun.
  assert (wf h1) as Hwf1 by (unfold wf; rewrite E1, E2, E4; done).
  assert (HEAP_PARENT s = idx) as Hps
    by (destruct Hchild as [->| ->]; [by apply HEAP_PARENT_LEFT|by apply HEAP_PARENT_RIGHT]).
  rewrite (IH h1 s Hwf1 ltac:(lia) Hrun i).
  - apply L3.
    + destruct Hfar as [Hfar|Hfar]; [|lia]. intros ->. apply Hfar, descends_refl.
    + destruct Hfar as [Hfar|Hfar]; [|lia]. intros ->.
      apply Hfar. by apply (descends_child s), descends_refl.
  - destruct Hfar as [Hfar|Hfar]; [left|right; lia].
    intros Hd. apply Hfar. by apply (descends_child s).
Qed.



Lemma heap_extract_unfold heap :
  wf heap → 0 < count heap →
  ∃ x last, load (entries heap) 0 = Some x ∧
    load (entries heap) (count heap - 1) = Some last ∧
    wf (set_count (set_entries heap (<[0%nat:=last]> (entries heap))) (count heap - 1)) ∧
    heap_extract heap =
      heap' ← heap_heapify
        (set_count (set_entries heap (<[0%nat:=last]> (entries heap))) (count heap - 1)) 0;
      Some (x, heap').
Proof.
  intros [Hc Hl] Hpos. unfold heap_extract.
  rewrite (proj2 (Z.eqb_neq _ _)) by lia.
  destruct (load_in_range (entries heap) 0) as [x Hx]; [lia|].
  destruct (load_in_range (entries heap) (count heap - 1)) as [y Hy]; [lia|].
  exists x, y. rewrite Hx, Hy. simpl. rewrite store_in_range by lia.
  split_and!; [done..| |done]. split; simpl; [lia|by rewrite length_insert].
Qed.

(** X9.  [heap_extract] does not clear the slot it vacates: every slot from
    the new [count] on, the vacated one included, holds what it held before
    (so the handle moved to the root is still in its old slot as well). *)
Theorem heap_extract_keeps_tail heap :
  wf heap → 0 < count heap →
  ∃ x heap', heap_extract heap = Some (x, heap') ∧
    count heap' = count heap - 1 ∧
    length (entries heap') = length (entries heap) ∧
    ∀ i, count heap' ≤ i → load (entries heap') i = load (entries heap) i.
Proof.
  intros Hwf Hpos.
  destruct (heap_extract_unfold heap Hwf Hpos) as (x & last & Hx & Hlast & Hwf1 & ->).
  set (h1 := set_count _ _) in *.
  destruct (heap_heapify_total h1 0 Hwf1) as (h2 & Hrun & (Ec & _ & _ & El) & _); [done|].
  rewrite Hrun. simpl. exists x, h2. split_and!; [done|done| |].
  - rewrite El. simpl. by rewrite length_insert.
  - intros i Hi. rewrite Ec in Hi. simpl in Hi.
    rewrite (heapify_fuel_frame _ h1 0 h2 Hwf1 ltac:(lia) Hrun i) by (right; simpl; lia).
    simpl. destruct (Z.eq_dec i 0) as [->|Hne].
    + replace (count heap - 1) with 0 in Hlast by lia. rewrite Hlast.
      apply (load_insert_eq _ 0). pose proof (load_lt _ _ _ Hlast). lia.
    + by apply (load_insert_ne _ 0).
Qed.

Lemma heap_extract_keeps_tail_witness :
  wf heap_3 ∧ 0 < count heap_3 ∧
  ∃ x heap', heap_extract heap_3 = Some (x, heap') ∧ load (entries heap') 2 = Some 2.
Proof.
  split; [concrete_wf|]. split; [reflexivity|].
  destruct (heap_extract_keeps_tail heap_3) as (x & heap' & Hrun & Hc & _ & Htail);
    [concrete_wf|reflexivity|].
  exists x, heap'. split; [exact Hrun|]. rewrite Htail; [reflexivity|].
  rewrite Hc. simpl. lia.
Defined.

(** ** [heap_heapify] at the fringe *)

Lemma heapify_fuel_leaf fuel heap idx :
  count heap ≤ HEAP_LEFT idx → heapify_fuel (S fuel) heap idx = Some heap.
Proof.
  intros Hleaf. rewrite heapify_fuel_unfold. unfold heapify_choice.
  rewrite (proj2 (Z.ltb_ge _ _)) by (unfold HEAP_LEFT, HEAP_RIGHT in *; lia).
  rewrite (proj2 (Z.ltb_ge _ _)) by done. simpl. by rewrite Z.eqb_refl.
Qed.

Lemma heap_heapify_left_only heap idx :
  wf heap → 0 ≤ idx → HEAP_LEFT idx < count heap → count heap ≤ HEAP_RIGHT idx →
  ∃ x y, load (entries heap) idx = Some x ∧
    load (entries heap) (HEAP_LEFT idx) = Some y ∧
    heap_heapify heap idx =
      if comparator heap x y =? -1 then Some heap
      else heap_swap heap idx (HEAP_LEFT idx).
Proof.
  intros Hwf Hi Hleft Hright. pose proof Hwf as [Hc Hl].
  assert (idx < HEAP_LEFT idx) as Hlt by (unfold HEAP_LEFT; lia).
  destruct (heap_compare_in_range heap idx (HEAP_LEFT idx)) as (x & y & Hx & Hy & Hcmp);
    [lia..|].
  exists x, y. split_and!; [done..|].
  unfold heap_heapify. rewrite heapify_fuel_unfold. unfold heapify_choice.
  rewrite (proj2 (Z.ltb_ge _ _)) by done.
  rewrite (proj2 (Z.ltb_lt _ _)) by done. simpl.
  rewrite (proj2 (Z.eqb_neq _ _)) by lia.
  unfold heap_property. rewrite Hcmp. simpl.
  destruct (_ =? -1); [done|].
  destruct (heap_swap_effect heap idx (HEAP_LEFT idx))
    as (x' & y' & h1 & _ & _ & Hswap & (E1 & _) & _); [lia..|].
  rewrite Hswap. simpl.
  replace (Z.to_nat (count heap)) with (S (Z.to_nat (count heap - 1))) by lia.
  apply heapify_fuel_leaf. rewrite E1. unfold HEAP_LEFT, HEAP_RIGHT in *. lia.
Qed.



Lemma heapify_root_small heap :
  wf heap → lawful (comparator heap) → count heap ≤ 2 →
  ∃ heap', heap_heapify heap 0 = Some heap' ∧ keeps heap heap' ∧ heap_invariant heap'.
Proof.
  intros Hwf [_ Hflip] Hsmall. pose proof Hwf as [Hc Hl].
  destruct (Z.le_gt_cases (count heap) 1) as [Hone|Htwo].
  { exists heap. unfold heap_heapify.
    rewrite heapify_fuel_leaf by (unfold HEAP_LEFT; lia).
    split_and!; [done|apply keeps_refl|]. intros i p c Hi. lia. }
  destruct (heap_heapify_left_only heap 0 Hwf) as (a & b & Ha & Hb & ->);
    [lia|unfold HEAP_LEFT; lia|unfold HEAP_RIGHT; lia|].
  change (HEAP_LEFT 0) with 1 in *.
  assert (∀ i, 1 ≤ i < count heap → i = 1) as Honly by (intros; lia).
  destruct (Z.eqb_spec (comparator heap a b) (-1)) as [E|Hge].
  - exists heap. split_and!; [done|apply keeps_refl|].
    intros i p c Hi Hp Hc'. rewrite (Honly i Hi) in Hp, Hc'.
    change (HEAP_PARENT 1) with 0 in Hp. simplify_eq. lia.
  - destruct (heap_swap_keeps heap 0 1 Hwf) as (h2 & Hswap & K); [lia..|].
    destruct (heap_swap_effect heap 0 1)
      as (a' & b' & h2' & Ha' & Hb' & Hswap' & (E1 & _ & E3 & _) & L1 & L2 & _); [lia..|].
    rewrite Hswap in Hswap'. injection Hswap' as <-.
    exists h2. split_and!; [done..|].
    intros i p c Hi Hp Hc'. rewrite E1 in Hi. rewrite (Honly i Hi) in Hp, Hc'.
    change (HEAP_PARENT 1) with 0 in Hp. rewrite E3. simplify_eq.
    apply Hflip. congruence.
Qed.

(** X11.  On a heap of at most three handles [heap_extract] leaves a heap
    with the heap property, whatever the order of the entries before. *)
Theorem heap_extract_small_heap heap :
  wf heap → lawful (comparator heap) → 0 < count heap ≤ 3 →
  ∃ x heap', heap_extract heap = Some (x, heap') ∧
    load (entries heap) 0 = Some x ∧ heap_invariant heap'.
Proof.
  intros Hwf Hlaw Hsmall.
  destruct (heap_extract_unfold heap Hwf) as (x & last & Hx & Hlast & Hwf1 & ->); [lia|].
  set (h1 := set_count _ _) in *.
  destruct (heapify_root_small h1 Hwf1) as (h2 & -> & _ & Hinv); [done|simpl; lia|].
  simpl. by exists x, h2.
Qed.

Lemma heap_extract_small_heap_witness :
  wf heap_3 ∧ lawful (comparator heap_3) ∧ 0 < count heap_3 ≤ 3 ∧
  ∃ x heap', heap_extract heap_3 = Some (x, heap') ∧ heap_invariant heap'.
Proof.
  split; [concrete_wf|]. split; [exact cmp_num_lawful|]. split; [simpl; lia|].
  destruct (heap_extract_small_heap heap_3) as (x & heap' & Hrun & _ & Hinv);
    [concrete_wf|exact cmp_num_lawful|simpl; lia|].
  exists x, heap'. split; [exact Hrun|exact Hinv].
Defined.

(** ** [heap_swap] and the index macros *)

Lemma set_entries_id heap : set_entries heap (entries heap) = heap.
Proof. by destruct heap. Qed.

Lemma swap_back (l : list ptr) a b x y :
  l !! a = Some x → l !! b = Some y →
  <[b:=y]> (<[a:=x]> (<[b:=x]> (<[a:=y]> l))) = l.
Proof.
  intros Ha Hb. destruct (decide (a = b)) as [->|Hne].
  - rewrite !list_insert_insert_eq. by apply list_insert_id.
  - rewrite (list_insert_insert_ne _ a b) by done.
    rewrite list_insert_insert_eq, list_insert_insert_eq.
    rewrite (list_insert_id _ a) by done. by apply list_insert_id.
Qed.

(** X12.  [heap_swap] is its own inverse and does not depend on the order of
    its two indices; swapping a slot with itself changes nothing. *)
Theorem heap_swap_involutive heap a b :
  0 ≤ a < Z.of_nat (length (entries heap)) →
  0 ≤ b < Z.of_nat (length (entries heap)) →
  ∃ heap', heap_swap heap a b = Some heap' ∧
    heap_swap heap' a b = Some heap ∧
    heap_swap heap b a = Some heap' ∧
    (a = b → heap' = heap).
Proof.
  intros Ha Hb.
  destruct (heap_swap_in_range heap a b Ha Hb) as (x & y & Hx & Hy & Hab).
  destruct (heap_swap_in_range heap b a Hb Ha) as (y' & x' & Hy' & Hx' & Hba).
  rewrite Hx in Hx'. injection Hx' as <-. rewrite Hy in Hy'. injection Hy' as <-.
  pose proof Hx as [_ Hxn]%load_Some. pose proof Hy as [_ Hyn]%load_Some.
  set (h1 := set_entries heap _) in Hab.
  exists h1. split; [done|]. split_and!.
  - destruct (heap_swap_in_range h1 a b) as (x1 & y1 & Hx1 & Hy1 & ->);
      [simpl; by rewrite !length_insert..|].
    simpl in Hx1, Hy1.
    assert (y1 = x) as -> by (rewrite load_insert_eq in Hy1
      by (by rewrite length_insert); by injection Hy1).
    assert (x1 = y) as ->.
    { destruct (Z.eq_dec a b) as [->|Hne].
      - rewrite load_insert_eq in Hx1 by (by rewrite length_insert).
        injection Hx1 as <-. congruence.
      - rewrite load_insert_ne, load_insert_eq in Hx1 by lia. by injection Hx1. }
    simpl. rewrite swap_back by done. f_equal. by destruct heap.
  - rewrite Hba. unfold h1. do 2 f_equal.
    destruct (Z.eq_dec a b) as [->|Hne]; [congruence|].
    apply list_insert_insert_ne. lia.
  - intros ->. unfold h1. assert (x = y) as -> by congruence.
    rewrite list_insert_insert_eq, list_insert_id by done. apply set_entries_id.
Qed.

Lemma heap_swap_involutive_witness :
  0 ≤ 0 < Z.of_nat (length (entries heap_3)) ∧
  0 ≤ 2 < Z.of_nat (length (entries heap_3)) ∧
  ∃ heap', heap_swap heap_3 0 2 = Some heap' ∧ heap_swap heap' 0 2 = Some heap_3.
Proof.
  split; [simpl; lia|]. split; [simpl; lia|].
  destruct (heap_swap_involutive heap_3 0 2) as (heap' & Hrun & Hback & _);
    [simpl; lia..|].
  exists heap'. split; [exact Hrun|exact Hback].
Defined.



(** ** A new front runner *)

Lemma load_stored heap i x :
  0 ≤ i < count heap → load (entries heap) i = Some x → x ∈ stored heap.
Proof.
  intros Hi [_ Hx]%load_Some. apply (list_elem_of_lookup_2 _ (Z.to_nat i)).
  unfold stored. rewrite lookup_take_lt by lia. done.
Qed.

(** X14.  A value that no stored handle compares [-1] with (it ranks below
    or level with all of them) is sifted up to the root by [heap_insert], and
    is what the next [heap_extract] returns. *)
Theorem heap_insert_new_minimum heap value :
  wf heap → count heap < capacity heap →
  (∀ p, p ∈ stored heap → comparator heap p value ≠ -1) →
  ∃ heap' heap'', heap_insert heap value = Some heap' ∧
    load (entries heap') 0 = Some value ∧
    heap_extract heap' = Some (value, heap'').
Proof.
  intros Hwf Hlt Hmin. pose proof Hwf as [Hc Hl].
  destruct (heap_insert_total heap value Hwf Hlt) as (h' & Hrun & Hwf' & Ec & _).
  exists h'. pose proof Hrun as Hins. unfold heap_insert in Hrun.
  rewrite (proj2 (Z.eqb_neq _ _)) in Hrun by lia.
  rewrite store_in_range in Hrun by lia. cbn [mbind option_bind] in Hrun.
  set (h1 := set_count _ _) in Hrun.
  assert (wf h1) as Hwf1 by (split; simpl; [lia|by rewrite length_insert]).
  destruct (bubble_up_path (S (Z.to_nat (count heap))) h1 (count heap) value Hwf1)
    as (k & h2 & Hrun2 & _ & A & _ & C & _);
    [simpl; lia|lia|apply load_insert_eq; lia|].
  rewrite Hrun in Hrun2. injection Hrun2 as <-.
  assert (load (entries h') 0 = Some value) as Hroot.
  { destruct (Z.eq_dec (ancestor k (count heap)) 0) as [E|Hne]; [by rewrite <- E|].
    destruct C as [?|(p & Hp & Hcmp)]; [done|]. exfalso.
    pose proof (ancestor_S_lt k (count heap)) as Hdown.
    pose proof (ancestor_range (S k) (count heap)) as Hrange.
    pose proof (ancestor_range k (count heap)).
    change (entries h1) with (<[Z.to_nat (count heap):=value]> (entries heap)) in Hp.
    change (comparator h1) with (comparator heap) in Hcmp.
    rewrite load_insert_ne in Hp by lia.
    apply (Hmin p); [|done]. apply (load_stored heap (ancestor (S k) (count heap))); [lia|done]. }
  destruct (heap_extract_total h' Hwf') as (x & h'' & Hext & Hx & _); [lia|].
  rewrite Hroot in Hx. injection Hx as <-. by exists h''.
Qed.

Lemma heap_insert_new_minimum_witness :
  wf heap_50 ∧ count heap_50 < capacity heap_50 ∧
  ∃ heap' heap'', heap_insert heap_50 51 = Some heap' ∧
    heap_extract heap' = Some (51, heap'').
Proof.
  split; [concrete_wf|]. split; [reflexivity|].
  destruct (heap_insert_new_minimum heap_50 51) as (heap' & heap'' & Hins & _ & Hext).
  - concrete_wf.
  - reflexivity.
  - intros p Hp. apply list_elem_of_singleton in Hp. rewrite Hp. discriminate.
  - exists heap', heap''. split; [exact Hins|exact Hext].
Defined.

(** ** Heaps too small for a slot with two children *)

Lemma heap_bulk_insert_small heap count_arg values :
  wf heap → lawful (comparator heap) → capacity heap ≤ 2 →
  count_arg ≤ Z.of_nat (length values) →
  ∃ heap', heap_bulk_insert heap count_arg values = Some heap' ∧ wf heap' ∧
    capacity heap' = capacity heap ∧ comparator heap' = comparator heap ∧
    heap_invariant heap'.
Proof.
  intros Hwf Hlaw Hcap Hlen. pose proof Hwf as [Hc Hl]. unfold heap_bulk_insert.
  set (k := if _ >? _ then _ else _).
  assert (k ≤ capacity heap - count heap ∧ k ≤ count_arg) as [Hk1 Hk2].
  { unfold k. destruct (Z.gtb_spec (capacity heap - count heap) count_arg); lia. }
  destruct (bulk_copy_total (Z.to_nat k) heap 0 values Hwf)
    as (h1 & -> & Hwf1 & Ec & Ep & Em & _); [lia..|].
  simpl. pose proof Hwf1 as [Hc1 _].
  assert ((count h1 - 1) `quot` 2 = 0) as -> by (Z.to_euclidean_division_equations; lia).
  destruct (heapify_root_small h1 Hwf1) as (h2 & Hrun & K & Hinv);
    [by rewrite Em|lia|].
  change (Z.to_nat (0 + 2)) with 2%nat. simpl. rewrite Hrun. simpl.
  pose proof K as [(_ & Kp & Km & _) _].
  exists h2. split_and!; [done|by eapply keeps_wf|congruence|congruence|done].
Qed.

(** X15.  In a heap of capacity at most two [heap_heapify] never meets a
    slot with two children, and for a lawful comparator every sequence of
    [heap_insert], [heap_bulk_insert] and [heap_extract] calls on a new such
    heap leaves the heap property in place. *)
Theorem small_capacity_heap_property cap cmp cs :
  lawful cmp → 0 ≤ cap ≤ 2 →
  ∃ heap, do_calls (heap_new cap cmp) cs = Some heap ∧ heap_invariant heap.
Proof.
  intros Hlaw Hcap.
  assert (∀ heap, wf heap → comparator heap = cmp → capacity heap ≤ 2 →
            heap_invariant heap →
            ∃ heap', do_calls heap cs = Some heap' ∧ heap_invariant heap') as Hgen.
  { induction cs as [|c cs IH]; intros heap Hwf Em Hsmall Hinv; simpl.
    { by exists heap. }
    assert (∃ h1, do_call heap c = Some h1 ∧ wf h1 ∧ capacity h1 = capacity heap ∧
              comparator h1 = comparator heap ∧ heap_invariant h1)
      as (h1 & -> & Hwf1 & Ep1 & Em1 & Hinv1).
    { pose proof Hwf as [Hc _]. destruct c as [v|vs|]; simpl.
      - destruct (heap_insert_invariant_any heap v Hwf) as (h1 & Hrun & ? & ? & ?);
          [by rewrite Em|done|].
        destruct (do_call_total heap (Insert v) Hwf) as (h1' & Hrun' & _ & ? & _).
        simpl in Hrun'. rewrite Hrun in Hrun'. injection Hrun' as <-. by exists h1.
      - apply heap_bulk_insert_small; [done|by rewrite Em|done|lia].
      - destruct (Z.eq_dec (count heap) 0) as [E0|Hne].
        { rewrite heap_extract_empty by done. by exists heap. }
        destruct (heap_extract_unfold heap Hwf) as (x & last & _ & _ & Hwfe & ->); [lia|].
        set (h0 := set_count _ _) in *.
        destruct (heapify_root_small h0 Hwfe) as (h1 & -> & K & Hinv1);
          [simpl; by rewrite Em|simpl; lia|].
        pose proof K as [(_ & Kp & Km & _) _].
        simpl. exists h1. split_and!; [done|by eapply keeps_wf|done|done|done]. }
    simpl. apply IH; [done|congruence|lia|done]. }
  apply Hgen; [apply heap_new_wf; lia|done|simpl; lia|].
  intros i p c Hi. simpl in Hi. lia.
Qed.

Lemma small_capacity_heap_property_witness :
  lawful cmp_num ∧ 0 ≤ 2 ≤ 2 ∧
  ∃ heap, do_calls (heap_new 2 cmp_num) [BulkInsert [9; 4; 6]; Extract; Insert 1]
            = Some heap ∧ heap_invariant heap.
Proof.
  split; [exact cmp_num_lawful|]. split; [lia|].
  apply (small_capacity_heap_property 2 cmp_num); [exact cmp_num_lawful|lia].
Defined.
